(** * Crossword CSP solver ([generate.py]): shallow embedding and verification

    The development embeds [CrosswordCreator] (node consistency, AC-3,
    the consistency check, the two heuristics and the backtracking search)
    and proves the properties stated for it.

    Conventions of the embedding:
    - a Python [set] is a [gset]; where the code iterates over a set the
      model iterates over [elements], one fixed choice of the iteration
      order that Python leaves unspecified;
    - [self.domains] is a [gmap] from variables to word sets (value
      semantics: [__init__] copies the word pool per variable and
      [enforce_node_consistency] rebuilds every set, so no two domains
      share a set object);
    - an assignment is an insertion-ordered association list, as a Python
      [dict] is; it is threaded through [backtrack] as explicit state
      because the code mutates the one dict in place;
    - exceptions are values of [result]; loops that the code bounds only
      implicitly take fuel, and the fuel is shown to suffice. *)

From stdpp Require Import gmap strings list fin_maps.
From Stdlib Require Import Sorted.

(** ** Puzzle model *)

Inductive Direction := ACROSS | DOWN.

(** Modelled from the spec: the class [Variable] of [crossword.py] (not part
    of the sources): a slot given by its start cell, its direction and its
    length, compared and hashed by these four fields. *)
Record Var := mkVar {
  var_i : nat;
  var_j : nat;
  var_direction : Direction;
  var_length : nat
}.

#[global] Instance Direction_eq_dec : EqDecision Direction.
Proof. solve_decision. Defined.

#[global] Instance Var_eq_dec : EqDecision Var.
Proof. solve_decision. Defined.

#[global] Instance Var_countable : Countable Var.
Proof.
  refine (inj_countable'
    (fun v => (var_i v, var_j v,
               match var_direction v with ACROSS => true | DOWN => false end,
               var_length v))
    (fun t => match t with
              | (a, b, d, l) => mkVar a b (if d then ACROSS else DOWN) l
              end) _).
  intros [a b [] l]; reflexivity.
Defined.

(** Modelled from the spec: the class [Crossword] of [crossword.py] (not part
    of the sources), as the solver reads it: [variables], [words],
    [neighbors(v)] and [overlaps[v1, v2]], the last an optional pair of
    character indices. *)
Record Crossword := mkCrossword {
  variables : gset Var;
  words : gset string;
  neighbors : Var → gset Var;
  overlaps : Var → Var → option (nat * nat)
}.

(** ** Exceptions and results *)

Inductive exn := KeyError | IndexError | TypeError | ValueError.

Inductive result (A : Type) : Type :=
  | Ok (a : A)
  | Raise (e : exn)
  | OutOfFuel.

Arguments Ok {A} a.
Arguments Raise {A} e.
Arguments OutOfFuel {A}.

Definition rbind {A B : Type} (f : A → result B) (m : result A) : result B :=
  match m with
  | Ok a => f a
  | Raise e => Raise e
  | OutOfFuel => OutOfFuel
  end.

#[global] Instance result_ret : MRet result := @Ok.
#[global] Instance result_bind : MBind result := @rbind.

(** ** Python primitives used by the solver *)

(** [w[k]] for a non-negative index. *)
Definition str_index (w : string) (k : nat) : result Ascii.ascii :=
  match String.get k w with
  | Some c => Ok c
  | None => Raise IndexError
  end.

Abbreviation domains := (gmap Var (gset string)).
Abbreviation assignment := (list (Var * string)).
Abbreviation arc := (Var * Var)%type.

(** [self.domains[x]] *)
Definition dict_get (doms : domains) (x : Var) : result (gset string) :=
  match doms !! x with
  | Some d => Ok d
  | None => Raise KeyError
  end.

(** [for var in self.domains] *)
Definition dict_keys (doms : domains) : list Var := (map_to_list doms).*1.

(** [assignment.get(var)] / [var in assignment] *)
Fixpoint dict_lookup (a : assignment) (var : Var) : option string :=
  match a with
  | [] => None
  | (v, w) :: rest => if decide (v = var) then Some w else dict_lookup rest var
  end.

(** [assignment[var] = value]: an existing key keeps its position, a new
    key goes last. *)
Fixpoint dict_set (a : assignment) (var : Var) (value : string) : assignment :=
  match a with
  | [] => [(var, value)]
  | (v, w) :: rest =>
      if decide (v = var) then (v, value) :: rest
      else (v, w) :: dict_set rest var value
  end.

Fixpoint dict_remove (a : assignment) (var : Var) : assignment :=
  match a with
  | [] => []
  | (v, w) :: rest =>
      if decide (v = var) then rest else (v, w) :: dict_remove rest var
  end.

(** [del assignment[var]] *)
Definition dict_del (a : assignment) (var : Var) : result assignment :=
  match dict_lookup a var with
  | Some _ => Ok (dict_remove a var)
  | None => Raise KeyError
  end.

(** A comprehension whose element expression may raise. *)
Fixpoint mapR {A B : Type} (f : A → result B) (l : list A) : result (list B) :=
  match l with
  | [] => Ok []
  | x :: rest => y ← f x; ys ← mapR f rest; Ok (y :: ys)
  end.

(** A comprehension whose condition may raise. *)
Fixpoint filterR {A : Type} (p : A → result bool) (l : list A) : result (list A) :=
  match l with
  | [] => Ok []
  | x :: rest =>
      b ← p x; ys ← filterR p rest; Ok (if b : bool then x :: ys else ys)
  end.

(** A loop whose body either falls through ([Ok true]) or executes
    [return False] ([Ok false]). *)
Fixpoint allR {A : Type} (p : A → result bool) (l : list A) : result bool :=
  match l with
  | [] => Ok true
  | x :: rest => b ← p x; if b : bool then allR p rest else Ok false
  end.

(** [sum(f(x) for x in l)] *)
Fixpoint sumR {A : Type} (f : A → result nat) (l : list A) : result nat :=
  match l with
  | [] => Ok 0
  | x :: rest => n ← f x; m ← sumR f rest; Ok (n + m)
  end.

(** [sorted(..., key=...)] on the keys already computed: a stable sort, so
    its output is the one of any stable sort, Python's included. *)
Fixpoint insert_keyed {A : Type} (x : nat * A) (l : list (nat * A)) : list (nat * A) :=
  match l with
  | [] => [x]
  | y :: rest =>
      if decide (x.1 ≤ y.1) then x :: y :: rest else y :: insert_keyed x rest
  end.

Fixpoint sort_keyed {A : Type} (l : list (nat * A)) : list (nat * A) :=
  match l with
  | [] => []
  | x :: rest => insert_keyed x (sort_keyed rest)
  end.

(** Tuple comparison [(n1, z1) < (n2, z2)]. *)
Definition key_lt (k1 k2 : nat * Z) : bool :=
  bool_decide (k1.1 < k2.1) || (bool_decide (k1.1 = k2.1) && bool_decide (k1.2 < k2.2)%Z).

(** [min(..., key=...)] on the keys already computed: the first element
    whose key is minimal. *)
Fixpoint min_keyed {A : Type} (best : (nat * Z) * A) (l : list ((nat * Z) * A)) : A :=
  match l with
  | [] => best.2
  | x :: rest => if key_lt x.1 best.1 then min_keyed x rest else min_keyed best rest
  end.

(** What [backtrack] returns: [None], or the assignment dict it was given
    (the object itself, whose contents are the threaded state). *)
Inductive retval := RetNone | RetAssignment.

(** [if result:] on such a value. *)
Definition truthy (r : retval) (a : assignment) : bool :=
  match r with
  | RetNone => false
  | RetAssignment => bool_decide (a ≠ [])
  end.

(** ** CrosswordCreator *)

Section CrosswordCreator.
Context (cw : Crossword).

(** [__init__]: every variable starts with a copy of the word pool. *)
Definition init_domains : domains := gset_to_gmap (words cw) (variables cw).

(** [enforce_node_consistency]; the subscript [self.domains[var]] cannot
    raise, [var] being a key of the dict iterated over. *)
Definition node_filter (var : Var) (d : gset string) : gset string :=
  filter (λ word, String.length word = var_length var) d.

Definition enforce_node_consistency (doms : domains) : domains :=
  foldl (λ ds var,
           match ds !! var with
           | Some d => <[var := node_filter var d]> ds
           | None => ds
           end)
        doms (dict_keys doms).

(** [revise] *)
Definition revise (x y : Var) (doms : domains) : result (bool * domains) :=
  match overlaps cw x y with
  | None => Ok (false, doms)
  | Some (i, j) =>
      dy ← dict_get doms y;
      ls ← mapR (λ w, str_index w j) (elements dy);
      let letters_y : gset Ascii.ascii := list_to_set ls in
      dx ← dict_get doms x;
      rm ← filterR (λ word, c ← str_index word i;
                            Ok (bool_decide (c ∉ letters_y)))
                   (elements dx);
      let words_to_remove : gset string := list_to_set rm in
      if bool_decide (words_to_remove ≠ ∅)
      then Ok (true, <[x := dx ∖ words_to_remove]> doms)
      else Ok (false, doms)
  end.

(** [[(x, y) for x in self.domains for y in self.crossword.neighbors(x)]] *)
Definition all_arcs (doms : domains) : list arc :=
  x ← dict_keys doms; (λ y, (x, y)) <$> elements (neighbors cw x).

(** [all(len(self.domains[var]) > 0 for var in self.domains)] *)
Definition all_nonempty (doms : domains) : bool :=
  forallb (λ kv : Var * gset string, bool_decide (0 < size kv.2)) (map_to_list doms).

(** The [while queue:] loop of [ac3]. *)
Fixpoint ac3_loop (fuel : nat) (queue : list arc) (doms : domains)
  : result (bool * domains) :=
  match fuel with
  | 0 => OutOfFuel
  | S fuel' =>
      match queue with
      | [] => Ok (all_nonempty doms, doms)
      | (x, y) :: queue' =>
          '(revised, doms1) ← revise x y doms;
          if revised : bool then
            dx ← dict_get doms1 x;
            if bool_decide (dx = ∅) then Ok (false, doms1)
            else ac3_loop fuel'
                   (queue' ++ ((λ z, (z, x)) <$> elements (neighbors cw x ∖ {[y]})))
                   doms1
          else ac3_loop fuel' queue' doms1
      end
  end.

Definition total_size (doms : domains) : nat :=
  sum_list_with (λ kv : Var * gset string, size kv.2) (map_to_list doms).

(** Iterations granted to the loop: each one pops an arc, and only a
    revision that removes a word appends arcs, at most one per arc of the
    full arc set. *)
Definition ac3_fuel (queue : list arc) (doms : domains) : nat :=
  S (length queue + length (all_arcs doms) * total_size doms).

(** [ac3]; [arcs] is [None] for the default argument. *)
Definition ac3 (arcs : option (list arc)) (doms : domains) : result (bool * domains) :=
  match arcs with
  | Some [] => Ok (true, doms)
  | _ =>
      let queue := match arcs with
                   | Some l => l
                   | None => all_arcs doms
                   end in
      ac3_loop (ac3_fuel queue doms) queue doms
  end.

(** [assignment_complete] *)
Definition assignment_complete (a : assignment) : bool :=
  bool_decide (list_to_set a.*1 = variables cw).

(** The body of the inner loop of [consistent] for one [neighbor]. *)
Definition check_neighbor (a : assignment) (var : Var) (word : string) (neighbor : Var)
  : result bool :=
  match dict_lookup a neighbor with
  | None => Ok true
  | Some nword =>
      match overlaps cw var neighbor with
      | None => Raise TypeError
      | Some (i, j) =>
          c1 ← str_index word i;
          c2 ← str_index nword j;
          Ok (bool_decide (c1 = c2))
      end
  end.

(** The body of the outer loop of [consistent] for one item. *)
Definition check_item (a : assignment) (item : Var * string) : result bool :=
  if bool_decide (String.length item.2 ≠ var_length item.1) then Ok false
  else allR (check_neighbor a item.1 item.2) (elements (neighbors cw item.1)).

(** [consistent] *)
Definition consistent (a : assignment) : result bool :=
  let words_used : gset string := list_to_set a.*2 in
  if bool_decide (size words_used ≠ length a) then Ok false
  else allR (check_item a) a.

(** The summand of the key of [order_domain_values]. *)
Definition disagree (var : Var) (word : string) (neighbor : Var) (neighbor_word : string)
  : result nat :=
  match overlaps cw var neighbor with
  | None => Raise TypeError
  | Some (i, j) =>
      c1 ← str_index word i;
      c2 ← str_index neighbor_word j;
      Ok (if bool_decide (c1 ≠ c2) then 1 else 0)
  end.

(** The key of [order_domain_values]. *)
Definition lcv_key (doms : domains) (var : Var) (a : assignment) (word : string)
  : result nat :=
  sumR (λ neighbor,
          dn ← dict_get doms neighbor;
          sumR (disagree var word neighbor) (elements dn))
       (elements (neighbors cw var ∖ list_to_set a.*1)).

(** [order_domain_values] *)
Definition order_domain_values (doms : domains) (var : Var) (a : assignment)
  : result (list string) :=
  d ← dict_get doms var;
  keyed ← mapR (λ word, k ← lcv_key doms var a word; Ok (k, word)) (elements d);
  Ok (sort_keyed keyed).*2.

(** The key of [select_unassigned_variable]. *)
Definition mrv_key (doms : domains) (var : Var) : result (nat * Z) :=
  d ← dict_get doms var;
  Ok (size d, (- Z.of_nat (size (neighbors cw var)))%Z).

Definition unassigned_variables (a : assignment) : list Var :=
  filter (λ var, dict_lookup a var = None) (elements (variables cw)).

(** [select_unassigned_variable]; [min] of an empty list raises. *)
Definition select_unassigned_variable (doms : domains) (a : assignment) : result Var :=
  match unassigned_variables a with
  | [] => Raise ValueError
  | unassigned =>
      keyed ← mapR (λ var, k ← mrv_key doms var; Ok (k, var)) unassigned;
      match keyed with
      | [] => Raise ValueError
      | first :: rest => Ok (min_keyed first rest)
      end
  end.

(** The [for value in ...] loop of [backtrack]; [recurse] is the recursive
    call [self.backtrack]. *)
Fixpoint backtrack_values (recurse : assignment → result (retval * assignment))
    (var : Var) (values : list string) (a : assignment)
  : result (retval * assignment) :=
  match values with
  | [] => Ok (RetNone, a)
  | value :: rest =>
      let a1 := dict_set a var value in
      ok ← consistent a1;
      if ok : bool then
        '(r, a2) ← recurse a1;
        if truthy r a2 then Ok (r, a2)
        else a3 ← dict_del a2 var; backtrack_values recurse var rest a3
      else a3 ← dict_del a1 var; backtrack_values recurse var rest a3
  end.

(** [backtrack], the recursion depth bounded by [fuel]. *)
Fixpoint backtrack_fuel (fuel : nat) (doms : domains) (a : assignment)
  : result (retval * assignment) :=
  match fuel with
  | 0 => OutOfFuel
  | S fuel' =>
      if assignment_complete a then Ok (RetAssignment, a)
      else
        var ← select_unassigned_variable doms a;
        values ← order_domain_values doms var a;
        backtrack_values (backtrack_fuel fuel' doms) var values a
  end.

(** [backtrack]: every call below the first assigns one more variable of
    the instance, so the depth never exceeds their number. *)
Definition backtrack (doms : domains) (a : assignment) : result (retval * assignment) :=
  backtrack_fuel (S (size (variables cw))) doms a.

(** [solve], with the search procedure it hands over to as a parameter. *)
Definition solve_with (search : domains → assignment → result (retval * assignment))
    (doms : domains) : result (option assignment * domains) :=
  let doms1 := enforce_node_consistency doms in
  let arcs := all_arcs doms1 in
  '(ok, doms2) ← ac3 (Some arcs) doms1;
  if negb ok then Ok (None, doms2)
  else
    '(r, a) ← search doms2 [];
    Ok (match r with RetNone => None | RetAssignment => Some a end, doms2).

(** [solve] *)
Definition solve (doms : domains) : result (option assignment * domains) :=
  solve_with backtrack doms.

End CrosswordCreator.

(** ** Rendering an assignment *)

Abbreviation grid := (list (list (option Ascii.ascii))).

(** A [for] loop whose body updates a state and may raise. *)
Fixpoint foldR {A S : Type} (body : S → A → result S) (s : S) (l : list A) : result S :=
  match l with
  | [] => Ok s
  | x :: rest => s' ← body s x; foldR body s' rest
  end.

(** [letters[i][j] = c] on a list of rows, for non-negative indices. *)
Definition grid_set (letters : grid) (i j : nat) (c : Ascii.ascii) : result grid :=
  match letters !! i with
  | None => Raise IndexError
  | Some row =>
      if decide (j < length row) then Ok (<[i := <[j := Some c]> row]> letters)
      else Raise IndexError
  end.

(** The cell [(i, j)] that [letter_grid] computes for the [k]-th letter of
    [variable]. *)
Definition cell_of (variable : Var) (k : nat) : nat * nat :=
  (var_i variable + match var_direction variable with DOWN => k | ACROSS => 0 end,
   var_j variable + match var_direction variable with ACROSS => k | DOWN => 0 end).

(** The loop [for k in range(len(word))] of [letter_grid]. *)
Definition write_word (letters : grid) (variable : Var) (word : string) : result grid :=
  foldR (λ letters k,
           c ← str_index word k;
           grid_set letters (cell_of variable k).1 (cell_of variable k).2 c)
        letters (seq 0 (String.length word)).

(** [letter_grid]; [height] and [width] are [self.crossword.height] and
    [self.crossword.width]. *)
Definition letter_grid (height width : nat) (a : assignment) : result grid :=
  foldR (λ letters item, write_word letters item.1 item.2)
        (replicate height (replicate width None)) a.

(** ** Properties the theorems are stated with *)

(** The letter [c] occurs at index [j] in some word of [dy]. *)
Definition occurs_at (j : nat) (dy : gset string) (c : Ascii.ascii) : Prop :=
  set_Exists (λ w', String.get j w' = Some c) dy.

(** The word [w] has, at index [i], a letter that occurs at index [j] in
    some word of [dy]. *)
Definition supported (i j : nat) (dy : gset string) (w : string) : Prop :=
  match String.get i w with
  | Some c => occurs_at j dy c
  | None => False
  end.

#[global] Instance occurs_at_dec j dy c : Decision (occurs_at j dy c).
Proof. unfold occurs_at. apply _. Defined.

#[global] Instance supported_dec i j dy w : Decision (supported i j dy w).
Proof. unfold supported. destruct (String.get i w); apply _. Defined.

(** The domain [revise] leaves for [x]: the supported words of [dx]. *)
Definition revised_domain (i j : nat) (dx dy : gset string) : gset string :=
  filter (supported i j dy) dx.

(** Every word of every domain has the length of its variable. *)
Definition node_consistent (doms : domains) : Prop :=
  ∀ v d w, doms !! v = Some d → w ∈ d → String.length w = var_length v.

(** [doms'] has the keys of [doms] and every domain of [doms'] is included
    in the one of [doms]: words were removed at most. *)
Definition shrinks (doms' doms : domains) : Prop :=
  ∀ v, match doms' !! v, doms !! v with
       | Some d', Some d => d' ⊆ d
       | None, None => True
       | _, _ => False
       end.

(** No variable has an empty domain. *)
Definition domains_nonempty (doms : domains) : Prop :=
  ∀ v d, doms !! v = Some d → d ≠ ∅.

(** The arc [(x, y)] is consistent in [doms]: there is nothing for
    [revise(x, y)] to remove. Without an overlap entry that is always so;
    with the entry [(i, j)] every word of [x]'s domain must have, at index
    [i], a letter found at index [j] of some word of [y]'s domain. *)
Definition arc_consistent (cw : Crossword) (doms : domains) (x y : Var) : Prop :=
  match overlaps cw x y with
  | None => True
  | Some (i, j) =>
      ∃ dx dy, doms !! x = Some dx ∧ doms !! y = Some dy ∧
               (∀ w, w ∈ dy → is_Some (String.get j w)) ∧
               (∀ w, w ∈ dx → supported i j dy w)
  end.

(** The loop invariant: an arc of the full arc set is consistent or still
    in the queue. *)
Definition ac3_invariant (cw : Crossword) (queue : list arc) (doms : domains) : Prop :=
  ∀ x y, x ∈ dom doms → y ∈ neighbors cw x →
         (x, y) ∈ queue ∨ arc_consistent cw doms x y.

(** Modelled from the spec: the contract of [Crossword.neighbors] and
    [Crossword.overlaps] ([crossword.py] is not part of the sources). The
    overlap table is given per unordered pair of variables sharing a cell,
    so the entry of [(y, x)] is the entry of [(x, y)] swapped, and being
    neighbors is mutual. *)
Definition neighbors_symmetric (cw : Crossword) : Prop :=
  ∀ x y, y ∈ neighbors cw x → x ∈ neighbors cw y.

Definition overlaps_symmetric (cw : Crossword) : Prop :=
  ∀ x y i j, overlaps cw x y = Some (i, j) → overlaps cw y x = Some (j, i).

(** A Python dict holds a key once. *)
Definition dict_wf (a : assignment) : Prop := NoDup a.*1.

(** The three constraints, over the assigned variables only. *)
Definition words_distinct (a : assignment) : Prop :=
  ∀ v1 v2 w, dict_lookup a v1 = Some w → dict_lookup a v2 = Some w → v1 = v2.

Definition lengths_fit (a : assignment) : Prop :=
  ∀ v w, dict_lookup a v = Some w → String.length w = var_length v.

(** Two assigned neighbors agree: their overlap entry [(i, j)] selects the
    same letter at index [i] of the one word and index [j] of the other. *)
Definition overlaps_agree (cw : Crossword) (a : assignment) : Prop :=
  ∀ v w n nw,
    dict_lookup a v = Some w → n ∈ neighbors cw v → dict_lookup a n = Some nw →
    ∃ i j c, overlaps cw v n = Some (i, j) ∧
             String.get i w = Some c ∧ String.get j nw = Some c.

Definition satisfies (cw : Crossword) (a : assignment) : Prop :=
  words_distinct a ∧ lengths_fit a ∧ overlaps_agree cw a.

(** Every variable of the instance is assigned a word. *)
Definition complete (cw : Crossword) (a : assignment) : Prop :=
  ∀ v, v ∈ variables cw → is_Some (dict_lookup a v).

(** The least-constraining-value score in the words of the specification:
    for the neighbor [n] of [var], with overlap entry [(i, j)], the number of
    words of [n]'s current domain whose letter at index [j] differs from the
    letter of [word] at index [i]; summed over the unassigned neighbors. *)
Definition ruled_out (cw : Crossword) (doms : domains) (var : Var) (word : string)
    (n : Var) : nat :=
  match overlaps cw var n, doms !! n with
  | Some (i, j), Some dn =>
      size (filter (λ nw, String.get i word ≠ String.get j nw) dn)
  | _, _ => 0
  end.

Definition lcv_score (cw : Crossword) (doms : domains) (var : Var) (a : assignment)
    (word : string) : nat :=
  sum_list (ruled_out cw doms var word <$>
            elements (filter (λ n, dict_lookup a n = None) (neighbors cw var))).

(** Modelled from the spec: the rest of the Puzzle Model contract. An
    overlap entry indexes into words of the two variables' lengths, and the
    neighbors of a variable are variables of the instance. *)
Definition overlaps_in_range (cw : Crossword) : Prop :=
  ∀ x y i j, overlaps cw x y = Some (i, j) → i < var_length x ∧ j < var_length y.

Definition neighbors_closed (cw : Crossword) : Prop :=
  ∀ x y, x ∈ variables cw → y ∈ neighbors cw x → y ∈ variables cw.

(** The neighbor sets and the overlap table describe the same pairs. *)
Definition neighbors_overlap (cw : Crossword) : Prop :=
  ∀ x y, x ∈ variables cw → y ∈ variables cw →
         (y ∈ neighbors cw x ↔ is_Some (overlaps cw x y)).

(** A malformed instance: a variable of length zero, or an overlap table
    that disagrees with the neighbor sets. *)
Definition malformed (cw : Crossword) : Prop :=
  (∃ v, v ∈ variables cw ∧ var_length v = 0) ∨ ¬ neighbors_overlap cw.

(** Modelled from the spec: a well-formed instance, as [crossword.py]
    builds them. *)
Definition well_formed (cw : Crossword) : Prop :=
  overlaps_in_range cw ∧ neighbors_closed cw ∧ neighbors_overlap cw.

(** The assignments the search works on: words taken from the domains of
    variables of the instance. *)
Definition drawn_from (cw : Crossword) (doms : domains) (a : assignment) : Prop :=
  ∀ v w, (v, w) ∈ a → v ∈ variables cw ∧ ∃ d, doms !! v = Some d ∧ w ∈ d.

(** [b] agrees with [a] on every variable that [a] assigns. *)
Definition extends (b a : assignment) : Prop :=
  ∀ v w, dict_lookup a v = Some w → dict_lookup b v = Some w.

(** A solution of the instance within [doms]: a dict over exactly the
    variables of the instance that meets the three constraints and takes
    every word from the domain of its variable. *)
Definition solution (cw : Crossword) (doms : domains) (b : assignment) : Prop :=
  dict_wf b ∧
  (∀ v, v ∈ variables cw ↔ is_Some (dict_lookup b v)) ∧
  satisfies cw b ∧
  ∀ v w, dict_lookup b v = Some w → ∃ d, doms !! v = Some d ∧ w ∈ d.

(** A completion of the partial assignment [a] within [doms]: as a
    solution, except that the words [a] has fixed are taken as they are. *)
Definition completion (cw : Crossword) (doms : domains) (a b : assignment) : Prop :=
  dict_wf b ∧
  (∀ v, v ∈ variables cw ↔ is_Some (dict_lookup b v)) ∧
  satisfies cw b ∧
  extends b a ∧
  ∀ v w, dict_lookup a v = None → dict_lookup b v = Some w →
         ∃ d, doms !! v = Some d ∧ w ∈ d.

(** What a successful search adds to the dict it was given. *)
Definition extension_ok (cw : Crossword) (doms : domains) (a a' : assignment) : Prop :=
  ∃ ext, a' = a ++ ext ∧
         (∀ v w, (v, w) ∈ ext → v ∈ variables cw ∧ ∃ d, doms !! v = Some d ∧ w ∈ d) ∧
         (dict_wf a → dict_wf a').

(** Reading a cell of a grid: [None] outside the grid, [Some None] for a
    cell without a letter. *)
Definition grid_get (g : grid) (i j : nat) : option (option Ascii.ascii) :=
  g !! i ≫= (λ row, row !! j).

(** Every cell that [letter_grid] writes for [a] lies within [height] rows
    and [width] columns. *)
Definition in_grid (height width : nat) (a : assignment) : Prop :=
  ∀ v word k, (v, word) ∈ a → k < String.length word →
              (cell_of v k).1 < height ∧ (cell_of v k).2 < width.

(** Two letters of [a] that fall on a common cell are the same letter. *)
Definition crossings_agree (a : assignment) : Prop :=
  ∀ v1 w1 v2 w2 k1 k2 c1 c2,
    (v1, w1) ∈ a → (v2, w2) ∈ a →
    String.get k1 w1 = Some c1 → String.get k2 w2 = Some c2 →
    cell_of v1 k1 = cell_of v2 k2 → c1 = c2.

(** The writes [letters[i][j] = c] that [letter_grid] performs, in order. *)
Definition word_writes (variable : Var) (word : string) : list (nat * nat * Ascii.ascii) :=
  omap (λ k, c ← String.get k word; Some (cell_of variable k, c))
       (seq 0 (String.length word)).

Definition writes (a : assignment) : list (nat * nat * Ascii.ascii) :=
  item ← a; word_writes item.1 item.2.

Definition write_all (g : grid) (ws : list (nat * nat * Ascii.ascii)) : result grid :=
  foldR (λ g w, grid_set g w.1.1 w.1.2 w.2) g ws.

(** The letter written last at cell [(i, j)], if any. *)
Fixpoint last_write (ws : list (nat * nat * Ascii.ascii)) (i j : nat) : option Ascii.ascii :=
  match ws with
  | [] => None
  | w :: rest =>
      match last_write rest i j with
      | Some c => Some c
      | None => if decide (w.1 = (i, j)) then Some w.2 else None
      end
  end.

(** A grid of [height] rows of [width] cells. *)
Definition grid_dims (height width : nat) (g : grid) : Prop :=
  length g = height ∧ Forall (λ row, length row = width) g.

(** ** Instances used to exercise the theorems *)

(** Two slots of length three crossing at their middle cells. *)
Definition ex_across : Var := mkVar 1 0 ACROSS 3.
Definition ex_down : Var := mkVar 0 1 DOWN 3.

Definition crossing (x y : Var) (i j : nat) (u v : Var) : option (nat * nat) :=
  if decide (u = x ∧ v = y) then Some (i, j)
  else if decide (u = y ∧ v = x) then Some (j, i)
  else None.

Definition crossing_neighbors (x y : Var) (u : Var) : gset Var :=
  if decide (u = x) then {[y]} else if decide (u = y) then {[x]} else ∅.

Definition ex_cw : Crossword :=
  mkCrossword {[ex_across; ex_down]} {["CAT"; "DOG"; "ACE"; "ICE"; "A"]}
              (crossing_neighbors ex_across ex_down)
              (crossing ex_across ex_down 1 1).

Definition ex_solution : assignment := [(ex_down, "ICE"); (ex_across, "ACE")].

(** The first cell of the across slot is the last cell of the down slot,
    and no word starts with the last letter of another. *)
Definition ex_across2 : Var := mkVar 2 1 ACROSS 3.

Definition ex_unsat : Crossword :=
  mkCrossword {[ex_across2; ex_down]} {["CAT"; "DOG"]}
              (crossing_neighbors ex_across2 ex_down)
              (crossing ex_across2 ex_down 0 2).

(** One word for two crossing slots. *)
Definition ex_one_word : Crossword :=
  mkCrossword {[ex_across; ex_down]} {["CAT"]}
              (crossing_neighbors ex_across ex_down)
              (crossing ex_across ex_down 1 1).

(** A single slot whose domain is empty. *)
Definition ex_single : Crossword :=
  mkCrossword {[ex_across]} ∅ (λ _, ∅) (λ _ _, None).

Definition ex_empty_domain : domains := {[ex_across := ∅]}.

(** A slot of length zero next to a slot of length three. *)
Definition ex_zero_var : Var := mkVar 0 0 ACROSS 0.

Definition ex_zero : Crossword :=
  mkCrossword {[ex_zero_var; ex_down]} {["CAT"; "DOG"]} (λ _, ∅) (λ _ _, None).

(** Crossing slots of lengths three and four, one word of each length,
    with the overlap entries but empty neighbor sets. *)
Definition ex_down4 : Var := mkVar 0 1 DOWN 4.

Definition ex_no_neighbors : Crossword :=
  mkCrossword {[ex_across; ex_down4]} {["CAT"; "DOGS"]} (λ _, ∅)
              (crossing ex_across ex_down4 1 1).

(** An instance without slots. *)
Definition ex_no_variables : Crossword :=
  mkCrossword ∅ {["CAT"; "DOG"]} (λ _, ∅) (λ _ _, None).

(** * Verification *)

(** ** The result monad and the loop combinators *)

Lemma bind_Ok {A B : Type} (f : A → result B) (m : result A) (b : B) :
  m ≫= f = Ok b ↔ ∃ a, m = Ok a ∧ f a = Ok b.
Proof.
  destruct m as [a| |]; simpl; split.
  - eauto.
  - by intros (a' & [= ->] & ?).
  - done.
  - by intros (? & ? & ?).
  - done.
  - by intros (? & ? & ?).
Qed.

Lemma bind_not_fuel {A B : Type} (f : A → result B) (m : result A) :
  m ≠ OutOfFuel → (∀ a, m = Ok a → f a ≠ OutOfFuel) → m ≫= f ≠ OutOfFuel.
Proof. destruct m; simpl; intros; eauto; done. Qed.

(** Inversion of a successful run through a chain of binds. *)
Ltac inv_ok :=
  repeat match goal with
  | H : _ ≫= _ = Ok _ |- _ =>
      let a := fresh "a" in let E := fresh "E" in
      apply bind_Ok in H as (a & E & H)
  | H : Ok _ = Ok _ |- _ => first [discriminate H | injection H as H; subst]
  | H : Raise _ = Ok _ |- _ => discriminate H
  | H : OutOfFuel = Ok _ |- _ => discriminate H
  | H : mret _ = Ok _ |- _ => injection H as H; subst
  end.

Lemma str_index_Ok w k c : str_index w k = Ok c ↔ String.get k w = Some c.
Proof. unfold str_index. destruct (String.get k w); naive_solver. Qed.

Lemma str_index_not_fuel w k : str_index w k ≠ OutOfFuel.
Proof. unfold str_index. by destruct (String.get k w). Qed.

Lemma get_is_Some k w : k < String.length w → is_Some (String.get k w).
Proof.
  revert k. induction w as [|c w IH]; intros k Hk; simpl in *; [lia|].
  destruct k; [eauto|]. apply IH. lia.
Qed.

Lemma get_Some_lt k w c : String.get k w = Some c → k < String.length w.
Proof.
  revert k. induction w as [|c' w IH]; intros k Hk; simpl in *; [done|].
  destruct k; [lia|]. apply IH in Hk. lia.
Qed.

Lemma dict_get_Ok (doms : domains) x d : dict_get doms x = Ok d ↔ doms !! x = Some d.
Proof. unfold dict_get. destruct (doms !! x); naive_solver. Qed.

Lemma dict_get_not_fuel (doms : domains) x : dict_get doms x ≠ OutOfFuel.
Proof. unfold dict_get. by destruct (doms !! x). Qed.

Lemma mapR_Ok {A B : Type} (f : A → result B) (g : A → B) l :
  (∀ x, x ∈ l → f x = Ok (g x)) → mapR f l = Ok (g <$> l).
Proof.
  induction l as [|x l IH]; intros Hf; simpl; [done|].
  rewrite Hf by left. simpl. rewrite IH; [done|]. intros; apply Hf. by right.
Qed.

Lemma mapR_inv {A B : Type} (f : A → result B) l ys :
  mapR f l = Ok ys → Forall2 (λ x y, f x = Ok y) l ys.
Proof.
  revert ys. induction l as [|x l IH]; intros ys H; simpl in H; inv_ok.
  - constructor.
  - constructor; eauto.
Qed.

Lemma mapR_not_fuel {A B : Type} (f : A → result B) l :
  (∀ x, x ∈ l → f x ≠ OutOfFuel) → mapR f l ≠ OutOfFuel.
Proof.
  induction l as [|x l IH]; intros Hf; simpl; [done|].
  apply bind_not_fuel; [apply Hf; left|]. intros y _.
  apply bind_not_fuel; [apply IH; intros; apply Hf; by right|]. done.
Qed.

Lemma filterR_Ok {A : Type} (p : A → result bool) (q : A → bool) l :
  (∀ x, x ∈ l → p x = Ok (q x)) → filterR p l = Ok (filter (λ x, q x = true) l).
Proof.
  induction l as [|x l IH]; intros Hp; simpl; [done|].
  rewrite Hp by left. simpl. rewrite IH by (intros; apply Hp; by right). simpl.
  rewrite filter_cons. destruct (q x); by simpl.
Qed.

Lemma filterR_inv {A : Type} (p : A → result bool) l ys :
  filterR p l = Ok ys →
  (∀ x, x ∈ l → ∃ b, p x = Ok b) ∧ (∀ x, x ∈ ys ↔ x ∈ l ∧ p x = Ok true).
Proof.
  revert ys. induction l as [|x l IH]; intros ys H; simpl in H; inv_ok.
  - split; [by intros ? ?%elem_of_nil|]. intros x. rewrite elem_of_nil. naive_solver.
  - destruct (IH _ E0) as [Hdef Hmem]. split.
    + intros y [->|Hy]%elem_of_cons; eauto.
    + intros y. destruct a.
      * rewrite !elem_of_cons, Hmem. split.
        -- intros [->|[? ?]]; auto.
        -- intros [[->|?] ?]; auto.
      * rewrite elem_of_cons, Hmem. split.
        -- intros [? ?]; auto.
        -- intros [[->|?] Hp]; [congruence|auto].
Qed.

Lemma filterR_not_fuel {A : Type} (p : A → result bool) l :
  (∀ x, x ∈ l → p x ≠ OutOfFuel) → filterR p l ≠ OutOfFuel.
Proof.
  induction l as [|x l IH]; intros Hf; simpl; [done|].
  apply bind_not_fuel; [apply Hf; left|]. intros y _.
  apply bind_not_fuel; [apply IH; intros; apply Hf; by right|]. done.
Qed.

Lemma allR_true {A : Type} (p : A → result bool) l :
  allR p l = Ok true ↔ ∀ x, x ∈ l → p x = Ok true.
Proof.
  induction l as [|x l IH]; simpl.
  - split; [by intros _ ? ?%elem_of_nil|done].
  - split.
    + intros H. inv_ok. destruct a; [|done].
      intros y [->|Hy]%elem_of_cons; [done|]. by apply IH.
    + intros H. rewrite (H x) by left. simpl. apply IH. intros; apply H. by right.
Qed.

Lemma allR_not_fuel {A : Type} (p : A → result bool) l :
  (∀ x, x ∈ l → p x ≠ OutOfFuel) → allR p l ≠ OutOfFuel.
Proof.
  induction l as [|x l IH]; intros Hf; simpl; [done|].
  apply bind_not_fuel; [apply Hf; left|]. intros [] _; [|done].
  apply IH. intros; apply Hf. by right.
Qed.

Lemma sumR_Ok {A : Type} (f : A → result nat) (g : A → nat) l :
  (∀ x, x ∈ l → f x = Ok (g x)) → sumR f l = Ok (sum_list (g <$> l)).
Proof.
  induction l as [|x l IH]; intros Hf; simpl; [done|].
  rewrite Hf by left. simpl. rewrite IH; [done|]. intros; apply Hf. by right.
Qed.

Lemma sumR_not_fuel {A : Type} (f : A → result nat) l :
  (∀ x, x ∈ l → f x ≠ OutOfFuel) → sumR f l ≠ OutOfFuel.
Proof.
  induction l as [|x l IH]; intros Hf; simpl; [done|].
  apply bind_not_fuel; [apply Hf; left|]. intros y _.
  apply bind_not_fuel; [apply IH; intros; apply Hf; by right|]. done.
Qed.

(** ** Node consistency *)

Lemma node_fold_lookup (l : list Var) (doms : domains) v :
  NoDup l →
  foldl (λ ds var, match ds !! var with
                   | Some d => <[var := node_filter var d]> ds
                   | None => ds
                   end) doms l !! v
  = if decide (v ∈ l) then node_filter v <$> doms !! v else doms !! v.
Proof.
  revert doms. induction l as [|x l IH]; intros doms Hnd; simpl.
  - done.
  - apply NoDup_cons in Hnd as [Hx Hnd]. rewrite IH by done.
    destruct (decide (v = x)) as [->|Hne].
    + rewrite decide_False by done. rewrite decide_True by left.
      destruct (doms !! x) eqn:E; [by rewrite lookup_insert_eq|by rewrite E].
    + assert (Hstep : match doms !! x with
                      | Some d => <[x := node_filter x d]> doms
                      | None => doms
                      end !! v = doms !! v).
      { destruct (doms !! x); [by rewrite lookup_insert_ne|done]. }
      rewrite Hstep. destruct (decide (v ∈ l)) as [Hin|Hnin].
      * by rewrite decide_True by (by right).
      * rewrite decide_False; [done|]. by intros [?|?]%elem_of_cons.
Qed.

Lemma enforce_lookup (doms : domains) v :
  enforce_node_consistency doms !! v = node_filter v <$> doms !! v.
Proof.
  unfold enforce_node_consistency, dict_keys.
  rewrite node_fold_lookup by apply NoDup_fst_map_to_list.
  destruct (decide (v ∈ (map_to_list doms).*1)) as [|Hnin]; [done|].
  destruct (doms !! v) as [d|] eqn:E; [|done].
  exfalso. apply Hnin. apply list_elem_of_fmap. exists (v, d).
  split; [done|]. by apply elem_of_map_to_list.
Qed.

Lemma enforce_node_consistent (doms : domains) :
  node_consistent (enforce_node_consistency doms).
Proof.
  intros v d w Hv Hw. rewrite enforce_lookup in Hv.
  destruct (doms !! v) as [d0|]; simplify_eq/=.
  unfold node_filter in Hw. by apply elem_of_filter in Hw as [? _].
Qed.

Lemma enforce_shrinks (doms : domains) :
  shrinks (enforce_node_consistency doms) doms.
Proof.
  intros v. rewrite enforce_lookup. destruct (doms !! v) as [d|]; simpl; [|done].
  unfold node_filter. intros w. rewrite elem_of_filter. tauto.
Qed.

Lemma shrinks_refl (doms : domains) : shrinks doms doms.
Proof. intros v. by destruct (doms !! v). Qed.

Lemma shrinks_trans (d1 d2 d3 : domains) :
  shrinks d1 d2 → shrinks d2 d3 → shrinks d1 d3.
Proof.
  intros H12 H23 v. specialize (H12 v). specialize (H23 v).
  destruct (d1 !! v), (d2 !! v), (d3 !! v); try done. set_solver.
Qed.

Lemma shrinks_node_consistent (doms' doms : domains) :
  shrinks doms' doms → node_consistent doms → node_consistent doms'.
Proof.
  intros Hs Hn v d' w Hv Hw. specialize (Hs v). rewrite Hv in Hs.
  destruct (doms !! v) as [d|] eqn:E; [|done]. apply (Hn v d w E). set_solver.
Qed.

Lemma shrinks_dom (doms' doms : domains) : shrinks doms' doms → dom doms' = dom doms.
Proof.
  intros Hs. apply set_eq. intros v. rewrite !elem_of_dom. specialize (Hs v).
  destruct (doms' !! v), (doms !! v); try done; split; intros [? ?]; done || eauto.
Qed.

Lemma shrinks_insert (doms : domains) x dx dx' :
  doms !! x = Some dx → dx' ⊆ dx → shrinks (<[x := dx']> doms) doms.
Proof.
  intros Hx Hsub v. destruct (decide (v = x)) as [->|Hne].
  - by rewrite lookup_insert_eq, Hx.
  - rewrite lookup_insert_ne by done. by destruct (doms !! v).
Qed.

(** ** revise *)

Section Revise.
Context (cw : Crossword).

Lemma letters_spec j (dy : gset string) ls c :
  mapR (λ w, str_index w j) (elements dy) = Ok ls →
  c ∈ (list_to_set ls : gset Ascii.ascii) ↔ occurs_at j dy c.
Proof.
  intros Hm%mapR_inv. rewrite elem_of_list_to_set. unfold occurs_at, set_Exists.
  split.
  - intros Hc. apply list_elem_of_lookup in Hc as [k Hk].
    destruct (Forall2_lookup_r _ _ _ _ _ Hm Hk) as (w & Hw & Hget).
    exists w. split; [|by apply str_index_Ok].
    apply elem_of_elements. by eapply list_elem_of_lookup_2.
  - intros (w & Hw & Hget). apply elem_of_elements, list_elem_of_lookup in Hw as [k Hk].
    destruct (Forall2_lookup_l _ _ _ _ _ Hm Hk) as (c' & Hc' & Hget').
    apply str_index_Ok in Hget'. simplify_eq. by eapply list_elem_of_lookup_2.
Qed.

Lemma letters_defined j (dy : gset string) ls :
  mapR (λ w, str_index w j) (elements dy) = Ok ls →
  ∀ w, w ∈ dy → is_Some (String.get j w).
Proof.
  intros Hm%mapR_inv w Hw.
  apply elem_of_elements, list_elem_of_lookup in Hw as [k Hk].
  destruct (Forall2_lookup_l _ _ _ _ _ Hm Hk) as (c' & Hc' & Hget').
  apply str_index_Ok in Hget'. eauto.
Qed.

(** What a normal return of [revise] says about its arguments and result. *)
Lemma revise_inv x y (doms doms' : domains) b :
  revise cw x y doms = Ok (b, doms') →
  (overlaps cw x y = None ∧ b = false ∧ doms' = doms) ∨
  (∃ i j dx dy,
      overlaps cw x y = Some (i, j) ∧ doms !! x = Some dx ∧ doms !! y = Some dy ∧
      (∀ w, w ∈ dx → is_Some (String.get i w)) ∧
      (∀ w, w ∈ dy → is_Some (String.get j w)) ∧
      doms' = <[x := revised_domain i j dx dy]> doms ∧
      b = bool_decide (revised_domain i j dx dy ≠ dx)).
Proof.
  unfold revise. destruct (overlaps cw x y) as [[i j]|] eqn:Hov; [|intros; inv_ok; by left].
  intros H. right. inv_ok.
  rename a into dy, a0 into ls, a1 into dx, a2 into rm.
  apply dict_get_Ok in E, E1.
  pose proof (letters_defined _ _ _ E0) as Hdy.
  destruct (filterR_inv _ _ _ E2) as [Hdef Hmem].
  assert (Hdx : ∀ w, w ∈ dx → is_Some (String.get i w)).
  { intros w Hw. destruct (Hdef w) as [b' Hb']; [by apply elem_of_elements|].
    inv_ok. apply str_index_Ok in E3. eauto. }
  assert (Hrm : ∀ w, w ∈ (list_to_set rm : gset string) ↔ w ∈ dx ∧ ¬ supported i j dy w).
  { intros w. rewrite elem_of_list_to_set, Hmem, elem_of_elements.
    split; intros [Hw Hp]; (split; [done|]).
    - inv_ok. apply str_index_Ok in E3. unfold supported. rewrite E3.
      apply bool_decide_eq_true_1 in Hp. by rewrite <- (letters_spec _ _ _ _ E0).
    - destruct (Hdx w Hw) as [c Hc]. rewrite (proj2 (str_index_Ok _ _ _) Hc). simpl.
      f_equal. apply bool_decide_eq_true_2. rewrite (letters_spec _ _ _ _ E0).
      unfold supported in Hp. by rewrite Hc in Hp. }
  assert (Heq : dx ∖ list_to_set rm = revised_domain i j dx dy).
  { apply set_eq. intros w. unfold revised_domain.
    rewrite elem_of_difference, elem_of_filter, Hrm.
    destruct (decide (supported i j dy w)); tauto. }
  exists i, j, dx, dy. repeat split; try done.
  - case_bool_decide as Hne; inv_ok; [by rewrite Heq|].
    rewrite <- Heq. rewrite Hne.
    rewrite difference_empty_L. by rewrite insert_id.
  - rewrite <- Heq. case_bool_decide as Hne; inv_ok; symmetry.
    + apply bool_decide_eq_true_2. intros Hd. apply Hne. apply set_eq. intros w.
      rewrite elem_of_empty. split; [|done]. intros Hw.
      pose proof (proj1 (Hrm w) Hw) as [Hwx _]. rewrite <- Hd in Hwx.
      apply elem_of_difference in Hwx as [_ ?]. done.
    + apply bool_decide_eq_false_2. rewrite Hne.
      rewrite difference_empty_L. by intros ?.
Qed.

(** [revise] returns normally when the two domains exist and the overlap
    indices are within every word read. *)
Lemma revise_Ok x y (doms : domains) i j dx dy :
  overlaps cw x y = Some (i, j) → doms !! x = Some dx → doms !! y = Some dy →
  (∀ w, w ∈ dx → is_Some (String.get i w)) →
  (∀ w, w ∈ dy → is_Some (String.get j w)) →
  revise cw x y doms
  = Ok (bool_decide (revised_domain i j dx dy ≠ dx), <[x := revised_domain i j dx dy]> doms).
Proof.
  intros Hov Hx Hy Hdx Hdy.
  destruct (revise cw x y doms) as [[b doms']| |] eqn:Hr.
  - apply revise_inv in Hr as [(Hov' & _)|(i' & j' & dx' & dy' & Hov' & ? & ? & _ & _ & -> & ->)];
      [congruence|]. by simplify_eq.
  - exfalso. unfold revise in Hr. rewrite Hov in Hr.
    rewrite (proj2 (dict_get_Ok _ _ _) Hy) in Hr. simpl in Hr.
    rewrite (mapR_Ok _ (λ w, default Ascii.zero (String.get j w))) in Hr.
    2:{ intros w Hw%elem_of_elements. destruct (Hdy w Hw) as [c Hc].
        rewrite Hc. by apply str_index_Ok. }
    simpl in Hr. rewrite (proj2 (dict_get_Ok _ _ _) Hx) in Hr. simpl in Hr.
    match type of Hr with context [filterR ?p ?l] =>
      rewrite (filterR_Ok p (λ w, match p w with Ok b => b | _ => false end)) in Hr
    end.
    2:{ intros w Hw%elem_of_elements. destruct (Hdx w Hw) as [c Hc].
        by rewrite (proj2 (str_index_Ok _ _ _) Hc). }
    simpl in Hr. by case_bool_decide.
  - exfalso. unfold revise in Hr. rewrite Hov in Hr.
    rewrite (proj2 (dict_get_Ok _ _ _) Hy) in Hr. simpl in Hr.
    rewrite (mapR_Ok _ (λ w, default Ascii.zero (String.get j w))) in Hr.
    2:{ intros w Hw%elem_of_elements. destruct (Hdy w Hw) as [c Hc].
        rewrite Hc. by apply str_index_Ok. }
    simpl in Hr. rewrite (proj2 (dict_get_Ok _ _ _) Hx) in Hr. simpl in Hr.
    match type of Hr with context [filterR ?p ?l] =>
      rewrite (filterR_Ok p (λ w, match p w with Ok b => b | _ => false end)) in Hr
    end.
    2:{ intros w Hw%elem_of_elements. destruct (Hdx w Hw) as [c Hc].
        by rewrite (proj2 (str_index_Ok _ _ _) Hc). }
    simpl in Hr. by case_bool_decide.
Qed.

Lemma revise_not_fuel x y (doms : domains) : revise cw x y doms ≠ OutOfFuel.
Proof.
  unfold revise. destruct (overlaps cw x y) as [[i j]|]; [|done].
  apply bind_not_fuel; [apply dict_get_not_fuel|]. intros dy _.
  apply bind_not_fuel; [apply mapR_not_fuel; intros; apply str_index_not_fuel|].
  intros ls _. apply bind_not_fuel; [apply dict_get_not_fuel|]. intros dx _.
  apply bind_not_fuel.
  - apply filterR_not_fuel. intros w _.
    apply bind_not_fuel; [apply str_index_not_fuel|done].
  - intros rm _. by case_bool_decide.
Qed.

Lemma revised_domain_subseteq i j dx dy : revised_domain i j dx dy ⊆ dx.
Proof. unfold revised_domain. intros w. rewrite elem_of_filter. tauto. Qed.

Lemma revise_shrinks x y (doms doms' : domains) b :
  revise cw x y doms = Ok (b, doms') → shrinks doms' doms.
Proof.
  intros [(_ & _ & ->)|(i & j & dx & dy & _ & Hx & _ & _ & _ & -> & _)]%revise_inv.
  - apply shrinks_refl.
  - eapply shrinks_insert; [done|apply revised_domain_subseteq].
Qed.

End Revise.

(** ** AC-3 *)

Section AC3.
Context (cw : Crossword).

Lemma all_nonempty_spec (doms : domains) :
  all_nonempty doms = true ↔ domains_nonempty doms.
Proof.
  unfold all_nonempty, domains_nonempty. rewrite forallb_forall. split.
  - intros H v d Hv ->. specialize (H (v, ∅)).
    assert (0 < size (∅ : gset string)) as Hlt.
    { eapply bool_decide_eq_true_1. apply H, list_elem_of_In.
      by apply elem_of_map_to_list. }
    rewrite size_empty in Hlt. lia.
  - intros H [v d] Hin. apply list_elem_of_In, elem_of_map_to_list in Hin. simpl.
    apply bool_decide_eq_true_2. specialize (H v d Hin).
    destruct (decide (size d = 0)) as [Hz|]; [|lia].
    apply size_empty_iff in Hz. exfalso. apply H. by apply leibniz_equiv.
Qed.

Lemma ac3_loop_shrinks fuel queue (doms doms' : domains) b :
  ac3_loop cw fuel queue doms = Ok (b, doms') → shrinks doms' doms.
Proof.
  revert queue doms. induction fuel as [|fuel IH]; intros queue doms H; simpl in H; [done|].
  destruct queue as [|[x y] queue]; [inv_ok; apply shrinks_refl|].
  inv_ok. destruct a as [revised doms1]. pose proof (revise_shrinks _ _ _ _ _ _ E) as Hs.
  destruct revised.
  - inv_ok. case_bool_decide; inv_ok; [done|].
    eapply shrinks_trans; [by eapply IH|done].
  - eapply shrinks_trans; [by eapply IH|done].
Qed.

Lemma ac3_loop_true fuel queue (doms doms' : domains) :
  ac3_loop cw fuel queue doms = Ok (true, doms') → domains_nonempty doms'.
Proof.
  revert queue doms. induction fuel as [|fuel IH]; intros queue doms H; simpl in H; [done|].
  destruct queue as [|[x y] queue].
  - inv_ok. by apply all_nonempty_spec.
  - inv_ok. destruct a as [[] doms1]; [|by eapply IH].
    inv_ok. case_bool_decide; [done|]. by eapply IH.
Qed.

Lemma total_size_insert (doms : domains) x dx dx' :
  doms !! x = Some dx →
  total_size (<[x := dx']> doms) + size dx = total_size doms + size dx'.
Proof.
  intros Hx. unfold total_size.
  rewrite <- (insert_delete_id doms x dx Hx) at 2.
  rewrite <- (insert_delete_eq doms x dx').
  rewrite !map_to_list_insert by apply lookup_delete_eq. simpl. lia.
Qed.

Lemma neighbors_le_all_arcs (doms : domains) x :
  x ∈ dom doms → size (neighbors cw x) ≤ length (all_arcs cw doms).
Proof.
  intros [d Hd]%elem_of_dom. unfold all_arcs.
  assert (Hin : x ∈ dict_keys doms).
  { apply list_elem_of_fmap. exists (x, d). split; [done|]. by apply elem_of_map_to_list. }
  induction (dict_keys doms) as [|k l IH]; [by apply elem_of_nil in Hin|].
  rewrite bind_cons, length_app, length_fmap.
  apply elem_of_cons in Hin as [->|Hin]; [unfold size, set_size; simpl; lia|].
  specialize (IH Hin). lia.
Qed.

(** The loop never runs out of the iterations it is granted. *)
Lemma ac3_loop_not_fuel K fuel queue (doms : domains) :
  (∀ x, x ∈ dom doms → size (neighbors cw x) ≤ K) →
  length queue + K * total_size doms < fuel →
  ac3_loop cw fuel queue doms ≠ OutOfFuel.
Proof.
  intros HK. revert queue doms HK.
  induction fuel as [|fuel IH]; intros queue doms HK Hfuel; [lia|]. simpl.
  destruct queue as [|[x y] queue]; [done|]. simpl in Hfuel.
  apply bind_not_fuel; [apply revise_not_fuel|]. intros [revised doms1] Hr.
  pose proof (revise_shrinks _ _ _ _ _ _ Hr) as Hs.
  apply revise_inv in Hr as [(_ & -> & ->)|(i & j & dx & dy & _ & Hx & _ & _ & _ & -> & ->)].
  - apply IH; [done|lia].
  - case_bool_decide as Hne; [|rewrite insert_id by congruence; apply IH; [done|lia]].
    apply bind_not_fuel; [apply dict_get_not_fuel|]. intros dx1 _.
    case_bool_decide; [done|]. apply IH.
    + intros z Hz. apply HK. by rewrite <- (shrinks_dom _ _ Hs).
    + rewrite length_app, length_fmap.
      assert (length (elements (neighbors cw x ∖ {[y]})) ≤ K) as HlenK.
      { etrans; [|apply (HK x); apply elem_of_dom; eauto].
        apply (subseteq_size (neighbors cw x ∖ {[y]}) (neighbors cw x)). set_solver. }
      pose proof (total_size_insert doms x dx (revised_domain i j dx dy) Hx) as Hts.
      assert (size (revised_domain i j dx dy) < size dx) as Hlt.
      { apply subset_size. split; [apply revised_domain_subseteq|].
        intros Hsub. apply Hne. apply set_eq. intros w. split; [apply revised_domain_subseteq|apply Hsub]. }
      nia.
Qed.

Lemma ac3_not_fuel arcs (doms : domains) : ac3 cw arcs doms ≠ OutOfFuel.
Proof.
  unfold ac3, ac3_fuel.
  destruct arcs as [[|a l]|]; [done| |];
    (apply (ac3_loop_not_fuel (length (all_arcs cw doms)));
      [intros; by apply neighbors_le_all_arcs|lia]).
Qed.

Lemma ac3_shrinks arcs (doms doms' : domains) b :
  ac3 cw arcs doms = Ok (b, doms') → shrinks doms' doms.
Proof.
  unfold ac3. destruct arcs as [[|a l]|]; [intros; inv_ok; apply shrinks_refl| |];
    apply ac3_loop_shrinks.
Qed.

End AC3.

(** ** Arc consistency is what AC-3 establishes *)

Section ArcConsistency.
Context (cw : Crossword).

Lemma supported_defined i j dy w : supported i j dy w → is_Some (String.get i w).
Proof. unfold supported. destruct (String.get i w); [eauto|done]. Qed.

Lemma supported_mono i j (dy dy' : gset string) w :
  dy ⊆ dy' → supported i j dy w → supported i j dy' w.
Proof.
  unfold supported, occurs_at, set_Exists. intros Hsub.
  destruct (String.get i w); [|done]. intros (w' & Hw' & Hc). eauto.
Qed.

Lemma revised_domain_id i j (dx dy : gset string) :
  revised_domain i j dx dy = dx ↔ ∀ w, w ∈ dx → supported i j dy w.
Proof.
  unfold revised_domain. split.
  - intros Heq w Hw. rewrite <- Heq in Hw. by apply elem_of_filter in Hw as [? _].
  - intros H. apply set_eq. intros w. rewrite elem_of_filter. naive_solver.
Qed.

Lemma arc_consistent_revise (doms : domains) x y :
  arc_consistent cw doms x y ↔ revise cw x y doms = Ok (false, doms).
Proof.
  unfold arc_consistent. split.
  - destruct (overlaps cw x y) as [[i j]|] eqn:Hov.
    + intros (dx & dy & Hx & Hy & Hdy & Hsup).
      rewrite (revise_Ok cw x y doms i j dx dy Hov Hx Hy); [|by eauto using supported_defined|done].
      pose proof (proj2 (revised_domain_id i j dx dy) Hsup) as Heq.
      rewrite Heq, insert_id by done. by rewrite bool_decide_eq_false_2 by (by intros ?).
    + intros _. unfold revise. by rewrite Hov.
  - intros [(-> & _)|(i & j & dx & dy & -> & Hx & Hy & Hdx & Hdy & _ & Hb)]%revise_inv; [done|].
    exists dx, dy. repeat split; try done.
    apply revised_domain_id. symmetry in Hb. apply bool_decide_eq_false_1 in Hb.
    by apply dec_stable in Hb.
Qed.

(** A revision of [(x, y)] that removed words leaves consistent every arc
    that was, except the arcs into [x] from neighbors other than [y]. *)
Lemma arc_consistent_after_revise (doms : domains) x y i j dx dy u v :
  overlaps_symmetric cw →
  overlaps cw x y = Some (i, j) → doms !! x = Some dx → doms !! y = Some dy →
  (∀ w, w ∈ dx → is_Some (String.get i w)) →
  (∀ w, w ∈ dy → is_Some (String.get j w)) →
  ((u, v) = (x, y) ∨ (arc_consistent cw doms u v ∧ (v = x → u = y))) →
  arc_consistent cw (<[x := revised_domain i j dx dy]> doms) u v.
Proof.
  intros Hsym Hov Hx Hy Hdx Hdy Hcase.
  set (rd := revised_domain i j dx dy).
  assert (Hrd : rd ⊆ dx) by apply revised_domain_subseteq.
  assert (Hrd_sup : ∀ w, w ∈ rd → supported i j dy w).
  { intros w Hw. unfold rd, revised_domain in Hw. by apply elem_of_filter in Hw as [? _]. }
  (* the case x = y: the entry is its own swap, and every word supports itself *)
  assert (Hself : x = y → ∀ w, w ∈ rd → supported i j rd w).
  { intros -> w Hw. pose proof (Hsym _ _ _ _ Hov) as Hov'.
    rewrite Hov in Hov'. injection Hov' as ->.
    destruct (Hdx w (Hrd w Hw)) as [c Hc]. unfold supported. rewrite Hc.
    exists w. eauto. }
  assert (Hrd_def : ∀ w, w ∈ rd → is_Some (String.get i w)).
  { intros w Hw. apply Hdx. by apply Hrd. }
  destruct Hcase as [[= -> ->]|[Hcons Hvx]].
  - unfold arc_consistent. rewrite Hov. destruct (decide (x = y)) as [Heq|Hne].
    + pose proof (Hself Heq) as Hs. subst y.
      pose proof (Hsym _ _ _ _ Hov) as Hov'. rewrite Hov in Hov'. injection Hov' as ->.
      exists rd, rd. rewrite lookup_insert_eq. auto.
    + exists rd, dy. rewrite lookup_insert_eq, lookup_insert_ne by done. auto.
  - unfold arc_consistent in *. destruct (overlaps cw u v) as [[i' j']|] eqn:Hov'; [|done].
    destruct Hcons as (du & dv & Hu & Hv & Hdv & Hsup).
    destruct (decide (v = x)) as [->|Hvne].
    + (* the arc (y, x): the words removed from x's domain supported nothing *)
      pose proof (Hvx eq_refl) as ->. clear Hvx.
      pose proof (Hsym _ _ _ _ Hov) as Hyx. rewrite Hov' in Hyx.
      injection Hyx as -> ->.
      rewrite Hx in Hv. injection Hv as <-. rewrite Hy in Hu. injection Hu as <-.
      destruct (decide (y = x)) as [Heq|Hne].
      * pose proof (Hself (eq_sym Heq)) as Hs. subst y.
        rewrite Hov in Hov'. injection Hov' as ->.
        exists rd, rd. rewrite lookup_insert_eq. auto.
      * exists dy, rd. rewrite lookup_insert_eq, lookup_insert_ne by done.
        split; [done|]. split; [done|]. split; [done|].
        intros w' Hw'. specialize (Hsup w' Hw'). unfold supported in Hsup |- *.
        destruct (String.get j w') as [c|] eqn:Hc; [|done].
        destruct Hsup as (w & Hw & Hwc). exists w. split; [|done].
        unfold rd, revised_domain. apply elem_of_filter. split; [|done].
        unfold supported. rewrite Hwc. exists w'. eauto.
    + destruct (decide (u = x)) as [->|Hune].
      * rewrite Hx in Hu. injection Hu as <-.
        exists rd, dv. rewrite lookup_insert_eq, lookup_insert_ne by done.
        split; [done|]. split; [done|]. split; [done|].
        intros w Hw. apply Hsup. by apply Hrd.
      * exists du, dv. by rewrite !lookup_insert_ne by done.
Qed.

Lemma ac3_loop_establishes fuel queue (doms doms' : domains) :
  neighbors_symmetric cw → overlaps_symmetric cw →
  ac3_invariant cw queue doms →
  ac3_loop cw fuel queue doms = Ok (true, doms') →
  ∀ x y, x ∈ dom doms' → y ∈ neighbors cw x → arc_consistent cw doms' x y.
Proof.
  intros Hnsym Hosym. revert queue doms.
  induction fuel as [|fuel IH]; intros queue doms Hinv H; simpl in H; [done|].
  destruct queue as [|[x y] queue].
  - inv_ok. intros u v Hu Hv. destruct (Hinv u v Hu Hv) as [Hin|]; [|done].
    by apply elem_of_nil in Hin.
  - inv_ok. destruct a as [revised doms1]. destruct revised.
    + inv_ok. case_bool_decide; [done|]. pose proof E as Hrev.
      apply revise_inv in E as [(_ & [=] & _)|(i & j & dx & dy & Hov & Hx & Hy & Hdx & Hdy & -> & Hb)].
      eapply IH; [|done]. intros u v Hu Hv.
      rewrite dom_insert_L in Hu.
      assert (u ∈ dom doms) as Hu'.
      { apply elem_of_union in Hu as [->%elem_of_singleton|]; [|done]. apply elem_of_dom; eauto. }
      destruct (Hinv u v Hu' Hv) as [[[= -> ->]|Hq]%elem_of_cons|Hcons].
      * right. by eapply arc_consistent_after_revise; eauto.
      * left. apply elem_of_app. by left.
      * destruct (decide (v = x ∧ u ≠ y)) as [[-> Hne]|Hnot].
        -- left. apply elem_of_app. right. apply list_elem_of_fmap.
           exists u. split; [done|]. apply elem_of_elements.
           apply elem_of_difference. split; [by apply Hnsym|].
           by intros ->%elem_of_singleton.
        -- right. eapply arc_consistent_after_revise; eauto. right. split; [done|].
           intros ->. destruct (decide (u = y)); [done|]. exfalso. by apply Hnot.
    + pose proof E as Hrev.
      apply revise_inv in E as [(_ & _ & ->)|(i & j & dx & dy & Hov & Hx & Hy & Hdx & Hdy & Hd & Hb)].
      * eapply IH; [|done]. intros u v Hu Hv.
        destruct (Hinv u v Hu Hv) as [[[= -> ->]|Hq]%elem_of_cons|Hcons]; auto.
        right. by apply arc_consistent_revise.
      * symmetry in Hb. apply bool_decide_eq_false_1, dec_stable in Hb.
        rewrite Hb, insert_id in Hd by done. subst doms1.
        eapply IH; [|done]. intros u v Hu Hv.
        destruct (Hinv u v Hu Hv) as [[[= -> ->]|Hq]%elem_of_cons|Hcons]; auto.
        right. by apply arc_consistent_revise.
Qed.

Lemma elem_of_all_arcs (doms : domains) x y :
  (x, y) ∈ all_arcs cw doms ↔ x ∈ dom doms ∧ y ∈ neighbors cw x.
Proof.
  unfold all_arcs, dict_keys. rewrite list_elem_of_bind. split.
  - intros (x' & Hin & Hx'). apply list_elem_of_fmap in Hin as (y' & [= -> ->] & Hy').
    apply elem_of_elements in Hy'. split; [|done].
    apply list_elem_of_fmap in Hx' as ([k d] & -> & Hkd).
    apply elem_of_map_to_list in Hkd. apply elem_of_dom. eauto.
  - intros [[d Hd]%elem_of_dom Hy]. exists x. split.
    + apply list_elem_of_fmap. exists y. split; [done|]. by apply elem_of_elements.
    + apply list_elem_of_fmap. exists (x, d). split; [done|]. by apply elem_of_map_to_list.
Qed.

(** On a queue of consistent arcs the loop only pops. *)
Lemma ac3_loop_consistent fuel queue (doms : domains) :
  (∀ x y, (x, y) ∈ queue → arc_consistent cw doms x y) →
  length queue < fuel →
  ac3_loop cw fuel queue doms = Ok (all_nonempty doms, doms).
Proof.
  revert queue. induction fuel as [|fuel IH]; intros queue Hq Hlen; [lia|]. simpl.
  destruct queue as [|[x y] queue]; [done|].
  rewrite (proj1 (arc_consistent_revise doms x y)) by (apply Hq; left). simpl.
  apply IH; [|simpl in Hlen; lia]. intros u v Huv. apply Hq. by right.
Qed.

End ArcConsistency.

(** ** Assignments as dicts *)

Lemma dict_lookup_elem (a : assignment) v w : dict_lookup a v = Some w → (v, w) ∈ a.
Proof.
  induction a as [|[v' w'] a IH]; simpl; [done|].
  destruct (decide (v' = v)) as [->|]; [intros [= ->]; left|right; auto].
Qed.

Lemma dict_lookup_None (a : assignment) v : dict_lookup a v = None ↔ v ∉ a.*1.
Proof.
  induction a as [|[v' w'] a IH]; simpl.
  - split; [intros _; apply not_elem_of_nil|done].
  - rewrite not_elem_of_cons. destruct (decide (v' = v)) as [->|]; [|rewrite IH]; naive_solver.
Qed.

Lemma dict_lookup_is_Some (a : assignment) v : is_Some (dict_lookup a v) ↔ v ∈ a.*1.
Proof.
  rewrite <- not_eq_None_Some, dict_lookup_None.
  destruct (decide (v ∈ a.*1)); naive_solver.
Qed.

Lemma dict_lookup_NoDup (a : assignment) v w :
  dict_wf a → (v, w) ∈ a → dict_lookup a v = Some w.
Proof.
  unfold dict_wf. induction a as [|[v' w'] a IH]; simpl; intros Hnd Hin.
  - by apply elem_of_nil in Hin.
  - apply NoDup_cons in Hnd as [Hv' Hnd].
    apply elem_of_cons in Hin as [[= -> ->]|Hin]; [by rewrite decide_True|].
    rewrite decide_False; [by apply IH|]. intros ->. apply Hv'.
    apply list_elem_of_fmap. by exists (v, w).
Qed.

Lemma dict_set_fresh (a : assignment) var value :
  dict_lookup a var = None → dict_set a var value = a ++ [(var, value)].
Proof.
  induction a as [|[v w] a IH]; simpl; [done|].
  destruct (decide (v = var)); [done|]. intros H. by rewrite IH.
Qed.

Lemma dict_remove_fresh (a : assignment) var value :
  dict_lookup a var = None → dict_remove (a ++ [(var, value)]) var = a.
Proof.
  induction a as [|[v w] a IH]; simpl; [by rewrite decide_True|].
  destruct (decide (v = var)); [done|]. intros H. by rewrite IH.
Qed.

Lemma dict_lookup_app_fresh (a : assignment) var value :
  dict_lookup (a ++ [(var, value)]) var = Some value ∨
  is_Some (dict_lookup a var).
Proof.
  induction a as [|[v w] a IH]; simpl; [rewrite decide_True by done; auto|].
  destruct (decide (v = var)); [right; eauto|done].
Qed.

(** Assigning a fresh variable and deleting it again restores the dict. *)
Lemma dict_del_set_fresh (a : assignment) var value :
  dict_lookup a var = None → dict_del (dict_set a var value) var = Ok a.
Proof.
  intros Hnone. rewrite dict_set_fresh by done. unfold dict_del.
  destruct (dict_lookup_app_fresh a var value) as [->|[? Hs]]; [|congruence].
  by rewrite dict_remove_fresh.
Qed.

Lemma dict_del_not_fuel (a : assignment) var : dict_del a var ≠ OutOfFuel.
Proof. unfold dict_del. by destruct (dict_lookup a var). Qed.

Lemma size_list_to_set_le (l : list string) :
  size (list_to_set l : gset string) ≤ length l.
Proof.
  induction l as [|y l IH].
  - by rewrite list_to_set_nil, size_empty.
  - rewrite list_to_set_cons, length_cons.
    rewrite size_union_alt, size_singleton.
    assert (size (list_to_set l ∖ {[y]} : gset string) ≤ size (list_to_set l : gset string)).
    { apply subseteq_size. set_solver. }
    lia.
Qed.

Lemma size_list_to_set_NoDup (l : list string) :
  size (list_to_set l : gset string) = length l ↔ NoDup l.
Proof.
  split; [|apply size_list_to_set].
  induction l as [|x l IH]; [constructor|].
  rewrite list_to_set_cons, length_cons.
  pose proof (size_list_to_set_le l) as Hle.
  intros Hsz. destruct (decide (x ∈ l)) as [Hin|Hnin].
  - exfalso. assert ({[x]} ∪ list_to_set l = (list_to_set l : gset string)) as Heq by set_solver.
    rewrite Heq in Hsz. lia.
  - constructor; [done|]. apply IH.
    rewrite size_union in Hsz by set_solver. rewrite size_singleton in Hsz. lia.
Qed.

Lemma NoDup_values_distinct (a : assignment) : NoDup a.*2 → words_distinct a.
Proof.
  intros Hnd v1 v2 w H1%dict_lookup_elem H2%dict_lookup_elem.
  apply list_elem_of_lookup in H1 as [p Hp], H2 as [q Hq].
  assert (p = q) as ->.
  { eapply NoDup_lookup; [exact Hnd| |]; rewrite list_lookup_fmap.
    - by rewrite Hp. - by rewrite Hq. }
  congruence.
Qed.

Lemma distinct_NoDup_values (a : assignment) : dict_wf a → words_distinct a → NoDup a.*2.
Proof.
  intros Hwf Hd. apply NoDup_alt. intros p q w Hp Hq.
  rewrite list_lookup_fmap in Hp, Hq.
  destruct (a !! p) as [[kp wp]|] eqn:Ep; simplify_eq/=.
  destruct (a !! q) as [[kq wq]|] eqn:Eq; simplify_eq/=.
  assert (kp = kq) as ->.
  { apply (Hd kp kq w); apply dict_lookup_NoDup; try done;
      by eapply list_elem_of_lookup_2. }
  eapply NoDup_lookup; [exact Hwf| |]; rewrite list_lookup_fmap.
  - by rewrite Ep. - by rewrite Eq.
Qed.

(** ** The consistency check *)

Section Consistent.
Context (cw : Crossword).

Lemma check_neighbor_true (a : assignment) var word n :
  check_neighbor cw a var word n = Ok true ↔
  ∀ nw, dict_lookup a n = Some nw →
        ∃ i j c, overlaps cw var n = Some (i, j) ∧
                 String.get i word = Some c ∧ String.get j nw = Some c.
Proof.
  unfold check_neighbor. destruct (dict_lookup a n) as [nw|]; [|naive_solver].
  destruct (overlaps cw var n) as [[i j]|].
  - split.
    + intros H nw' [= <-]. inv_ok. apply str_index_Ok in E, E0.
      apply bool_decide_eq_true_1 in H. subst. eauto 10.
    + intros H. destruct (H nw eq_refl) as (i' & j' & c & [= <- <-] & Hi & Hj).
      rewrite (proj2 (str_index_Ok _ _ _) Hi), (proj2 (str_index_Ok _ _ _) Hj). simpl.
      by rewrite bool_decide_eq_true_2.
  - split; [done|]. intros H. by destruct (H nw eq_refl) as (? & ? & ? & ? & _).
Qed.

Lemma check_item_true (a : assignment) v w :
  check_item cw a (v, w) = Ok true ↔
  String.length w = var_length v ∧
  ∀ n nw, n ∈ neighbors cw v → dict_lookup a n = Some nw →
          ∃ i j c, overlaps cw v n = Some (i, j) ∧
                   String.get i w = Some c ∧ String.get j nw = Some c.
Proof.
  unfold check_item. simpl. case_bool_decide as Hlen.
  - split; [done|]. by intros [? _].
  - rewrite allR_true. split.
    + intros H. split; [done|]. intros n nw Hn. apply check_neighbor_true, H.
      by apply elem_of_elements.
    + intros [_ H] n Hn%elem_of_elements. apply check_neighbor_true. eauto.
Qed.

(** A positive answer of [consistent] means the three constraints hold. *)
Lemma consistent_sound (a : assignment) : consistent cw a = Ok true → satisfies cw a.
Proof.
  unfold consistent. case_bool_decide as Hsz; [done|].
  rewrite <- (length_fmap snd) in Hsz. apply size_list_to_set_NoDup in Hsz.
  rewrite allR_true. intros Hall. split; [by apply NoDup_values_distinct|]. split.
  - intros v w Hv%dict_lookup_elem. by apply Hall, check_item_true in Hv as [? _].
  - intros v w n nw Hv%dict_lookup_elem Hn Hnw.
    apply Hall, check_item_true in Hv as [_ Hv]. eauto.
Qed.

(** The three constraints make [consistent] answer positively. *)
Lemma consistent_complete (a : assignment) :
  dict_wf a → satisfies cw a → consistent cw a = Ok true.
Proof.
  intros Hwf (Hd & Hl & Ho). unfold consistent.
  rewrite bool_decide_eq_false_2.
  2:{ intros Hne. apply Hne. rewrite <- (length_fmap snd).
      by apply size_list_to_set_NoDup, distinct_NoDup_values. }
  apply allR_true. intros [v w] Hin. apply check_item_true.
  apply (dict_lookup_NoDup _ _ _ Hwf) in Hin. split; [by apply Hl|]. eauto.
Qed.

Lemma consistent_not_fuel (a : assignment) : consistent cw a ≠ OutOfFuel.
Proof.
  unfold consistent. case_bool_decide; [done|]. apply allR_not_fuel.
  intros [v w] _. unfold check_item. simpl. case_bool_decide; [done|].
  apply allR_not_fuel. intros n _. unfold check_neighbor.
  destruct (dict_lookup a n); [|done]. destruct (overlaps cw v n) as [[i j]|]; [|done].
  apply bind_not_fuel; [apply str_index_not_fuel|]. intros c1 _.
  apply bind_not_fuel; [apply str_index_not_fuel|done].
Qed.

End Consistent.

(** ** Sorting by key and taking the minimum *)

Lemma insert_keyed_perm {A : Type} (x : nat * A) l : insert_keyed x l ≡ₚ x :: l.
Proof.
  induction l as [|y l IH]; simpl; [done|].
  destruct (decide (x.1 ≤ y.1)); [done|]. rewrite IH. apply Permutation_swap.
Qed.

Lemma sort_keyed_perm {A : Type} (l : list (nat * A)) : sort_keyed l ≡ₚ l.
Proof.
  induction l as [|x l IH]; simpl; [done|]. by rewrite insert_keyed_perm, IH.
Qed.

Lemma insert_keyed_sorted {A : Type} (x : nat * A) l :
  StronglySorted (λ y z, y.1 ≤ z.1) l →
  StronglySorted (λ y z, y.1 ≤ z.1) (insert_keyed x l).
Proof.
  induction l as [|y l IH]; simpl; intros Hs.
  - repeat constructor.
  - apply StronglySorted_inv in Hs as [Hs Hy].
    destruct (decide (x.1 ≤ y.1)) as [Hle|Hgt].
    + constructor; [by constructor|]. constructor; [done|].
      eapply Forall_impl; [exact Hy|]. simpl. intros; lia.
    + constructor; [by apply IH|].
      rewrite insert_keyed_perm. constructor; [lia|done].
Qed.

Lemma sort_keyed_sorted {A : Type} (l : list (nat * A)) :
  StronglySorted (λ y z, y.1 ≤ z.1) (sort_keyed l).
Proof.
  induction l as [|x l IH]; simpl; [constructor|]. by apply insert_keyed_sorted.
Qed.

Lemma StronglySorted_fmap_snd {A : Type} (R : A → A → Prop) (l : list (nat * A)) :
  (∀ y z, y ∈ l → z ∈ l → y.1 ≤ z.1 → R y.2 z.2) →
  StronglySorted (λ y z, y.1 ≤ z.1) l → StronglySorted R l.*2.
Proof.
  induction l as [|x l IH]; intros HR Hs; simpl; [constructor|].
  apply StronglySorted_inv in Hs as [Hs Hx]. constructor.
  - apply IH; [|done]. intros y z Hy Hz. apply HR; by right.
  - apply Forall_fmap, Forall_forall. intros z Hz. simpl.
    apply HR; [left|by right|]. rewrite Forall_forall in Hx. by apply Hx.
Qed.

Lemma min_keyed_spec {A : Type} (best : (nat * Z) * A) l :
  ∃ k, (k, min_keyed best l) ∈ best :: l ∧ ∀ x, x ∈ best :: l → k.1 ≤ x.1.1.
Proof.
  revert best. induction l as [|x l IH]; intros best; simpl.
  - exists best.1. split; [destruct best; left|].
    by intros y ->%list_elem_of_singleton.
  - destruct (key_lt x.1 best.1) eqn:Hlt.
    + destruct (IH x) as (k & Hin & Hmin). exists k. split; [by right|].
      intros y [->|Hy]%elem_of_cons; [|by apply Hmin].
      etrans; [apply (Hmin x); left|]. unfold key_lt in Hlt.
      apply orb_true_iff in Hlt as [Hlt%bool_decide_eq_true_1|[Hlt%bool_decide_eq_true_1 _]%andb_true_iff]; lia.
    + destruct (IH best) as (k & Hin & Hmin). exists k. split.
      * apply elem_of_cons in Hin as [->|Hin]; [left|right; by right].
      * intros y [->|[->|Hy]%elem_of_cons]%elem_of_cons.
        -- apply Hmin. left.
        -- etrans; [apply (Hmin best); left|]. unfold key_lt in Hlt.
           apply orb_false_iff in Hlt as [Hlt%bool_decide_eq_false_1 _]. lia.
        -- apply Hmin. by right.
Qed.

(** The keys computed for a list pair each element with its key. *)
Lemma mapR_keyed_inv {A K : Type} (f : A → result K) l (ys : list (K * A)) :
  mapR (λ x, k ← f x; Ok (k, x)) l = Ok ys →
  ys.*2 = l ∧ ∀ y, y ∈ ys → f y.2 = Ok y.1.
Proof.
  revert ys. induction l as [|x l IH]; intros ys H; simpl in H; inv_ok.
  - split; [done|]. by intros ? ?%elem_of_nil.
  - destruct (IH _ E0) as [Hl Hf]. split; [by rewrite fmap_cons, Hl|].
    intros y [->|Hy]%elem_of_cons; [done|]. by apply Hf.
Qed.

Lemma mapR_keyed_Ok {A K : Type} (f : A → result K) (g : A → K) l :
  (∀ x, x ∈ l → f x = Ok (g x)) →
  mapR (λ x, k ← f x; Ok (k, x)) l = Ok ((λ x, (g x, x)) <$> l).
Proof. intros Hf. apply mapR_Ok. intros x Hx. by rewrite (Hf x Hx). Qed.

Lemma fmap_snd_keyed {A K : Type} (g : A → K) (l : list A) :
  ((λ x, (g x, x)) <$> l).*2 = l.
Proof. induction l as [|x l IH]; [done|]. by rewrite !fmap_cons, IH. Qed.

(** ** The heuristics *)

Section Heuristics.
Context (cw : Crossword).

Lemma elem_of_unassigned (a : assignment) v :
  v ∈ unassigned_variables cw a ↔ v ∈ variables cw ∧ dict_lookup a v = None.
Proof.
  unfold unassigned_variables. rewrite list_elem_of_filter, elem_of_elements. tauto.
Qed.

(** [select_unassigned_variable] picks an unassigned variable of the
    instance whose domain is among the smallest. *)
Lemma select_inv (doms : domains) (a : assignment) var :
  select_unassigned_variable cw doms a = Ok var →
  var ∈ variables cw ∧ dict_lookup a var = None ∧
  ∃ d, doms !! var = Some d ∧
       ∀ v, v ∈ variables cw → dict_lookup a v = None →
            ∃ d', doms !! v = Some d' ∧ size d ≤ size d'.
Proof.
  unfold select_unassigned_variable.
  destruct (unassigned_variables cw a) as [|u us] eqn:Hun; [done|].
  rewrite <- Hun. intros H. inv_ok. rename a0 into keyed.
  destruct keyed as [|first rest]; [done|]. inv_ok.
  apply mapR_keyed_inv in E as [Hvars Hkeys].
  destruct (min_keyed_spec first rest) as (k & Hin & Hmin).
  assert (Hvar : min_keyed first rest ∈ unassigned_variables cw a).
  { rewrite <- Hvars. apply list_elem_of_fmap. by exists (k, min_keyed first rest). }
  apply elem_of_unassigned in Hvar as [Hv Hnone]. split; [done|]. split; [done|].
  pose proof (Hkeys _ Hin) as Hk. simpl in Hk. unfold mrv_key in Hk. inv_ok.
  apply dict_get_Ok in E. exists a0. split; [done|].
  intros v Hv' Hnone'.
  assert (v ∈ (first :: rest).*2) as Hvin by (rewrite Hvars; by apply elem_of_unassigned).
  apply list_elem_of_fmap in Hvin as ([kv v'] & -> & Hvin).
  pose proof (Hkeys _ Hvin) as Hkv. simpl in Hkv. unfold mrv_key in Hkv. inv_ok.
  apply dict_get_Ok in E0. exists a1. split; [done|].
  apply (Hmin _ Hvin).
Qed.

Lemma select_not_fuel (doms : domains) (a : assignment) :
  select_unassigned_variable cw doms a ≠ OutOfFuel.
Proof.
  unfold select_unassigned_variable.
  destruct (unassigned_variables cw a) as [|u us]; [done|].
  apply bind_not_fuel.
  - apply mapR_not_fuel. intros v _. unfold mrv_key.
    apply bind_not_fuel; [|done].
    apply bind_not_fuel; [apply dict_get_not_fuel|done].
  - by intros [|first rest] _.
Qed.

(** [select_unassigned_variable] returns normally when some variable is
    unassigned and every unassigned variable has a domain. *)
Lemma select_Ok (doms : domains) (a : assignment) v :
  v ∈ variables cw → dict_lookup a v = None →
  (∀ u, u ∈ variables cw → dict_lookup a u = None → is_Some (doms !! u)) →
  ∃ var, select_unassigned_variable cw doms a = Ok var.
Proof.
  intros Hv Hnone Hdom. unfold select_unassigned_variable.
  destruct (unassigned_variables cw a) as [|u us] eqn:Hun.
  { exfalso. eapply not_elem_of_nil. rewrite <- Hun. by apply elem_of_unassigned. }
  rewrite <- Hun.
  rewrite (mapR_keyed_Ok _ (λ u, (size (default ∅ (doms !! u)),
                                  (- Z.of_nat (size (neighbors cw u)))%Z))).
  2:{ intros w [Hw Hwn]%elem_of_unassigned. destruct (Hdom w Hw Hwn) as [d Hd].
      unfold mrv_key. rewrite (proj2 (dict_get_Ok _ _ _) Hd). simpl. by rewrite Hd. }
  rewrite Hun. simpl. eauto.
Qed.

Lemma unassigned_neighbors_eq (a : assignment) var :
  neighbors cw var ∖ list_to_set a.*1
  = filter (λ n, dict_lookup a n = None) (neighbors cw var).
Proof.
  apply set_eq. intros n.
  rewrite elem_of_difference, elem_of_filter, elem_of_list_to_set, dict_lookup_None. tauto.
Qed.

Lemma count_size (P : string → Prop) `{∀ x, Decision (P x)} (X : gset string) :
  sum_list ((λ x, if decide (P x) then 1 else 0) <$> elements X) = size (filter P X).
Proof.
  unfold size, set_size. simpl.
  assert (elements (filter P X) ≡ₚ filter P (elements X)) as ->.
  { apply NoDup_Permutation; [apply NoDup_elements|apply NoDup_filter, NoDup_elements|].
    intros x. rewrite elem_of_elements, elem_of_filter, list_elem_of_filter, elem_of_elements.
    tauto. }
  induction (elements X) as [|x l IH]; [done|].
  rewrite fmap_cons, filter_cons. simpl. destruct (decide (P x)); simpl; lia.
Qed.

(** Where the indices are in range the key computed by the code is the
    score of the specification. *)
Lemma lcv_key_Ok (doms : domains) var (a : assignment) word :
  (∀ n, n ∈ neighbors cw var → dict_lookup a n = None →
        ∃ i j dn, overlaps cw var n = Some (i, j) ∧ doms !! n = Some dn ∧
                  i < String.length word ∧ ∀ nw, nw ∈ dn → j < String.length nw) →
  lcv_key cw doms var a word = Ok (lcv_score cw doms var a word).
Proof.
  intros Hn. unfold lcv_key, lcv_score. rewrite unassigned_neighbors_eq.
  apply sumR_Ok. intros n [Hnone Hnb]%elem_of_elements%elem_of_filter.
  destruct (Hn n Hnb Hnone) as (i & j & dn & Hov & Hdn & Hi & Hj).
  rewrite (proj2 (dict_get_Ok _ _ _) Hdn). simpl.
  unfold ruled_out. rewrite Hov, Hdn. rewrite <- count_size.
  apply sumR_Ok. intros nw Hnw%elem_of_elements. unfold disagree. rewrite Hov.
  destruct (get_is_Some i word Hi) as [c1 Hc1].
  destruct (get_is_Some j nw (Hj nw Hnw)) as [c2 Hc2].
  rewrite (proj2 (str_index_Ok _ _ _) Hc1), (proj2 (str_index_Ok _ _ _) Hc2). simpl.
  rewrite Hc1, Hc2. f_equal.
  destruct (decide (c1 = c2)) as [->|Hne].
  - rewrite bool_decide_eq_false_2 by (by intros ?). by rewrite decide_False by (by intros ?).
  - rewrite bool_decide_eq_true_2 by done. rewrite decide_True; [done|congruence].
Qed.

(** Whatever [order_domain_values] returns is the domain of [var], each
    word once. *)
Lemma order_inv (doms : domains) var (a : assignment) l :
  order_domain_values cw doms var a = Ok l →
  ∃ d, doms !! var = Some d ∧ l ≡ₚ elements d.
Proof.
  unfold order_domain_values. intros H. inv_ok. apply dict_get_Ok in E.
  apply mapR_keyed_inv in E0 as [Hl _]. exists a0. split; [done|].
  by rewrite sort_keyed_perm, Hl.
Qed.

Lemma order_not_fuel (doms : domains) var (a : assignment) :
  order_domain_values cw doms var a ≠ OutOfFuel.
Proof.
  unfold order_domain_values. apply bind_not_fuel; [apply dict_get_not_fuel|].
  intros d _. apply bind_not_fuel; [|done]. apply mapR_not_fuel. intros w _.
  apply bind_not_fuel; [|done]. unfold lcv_key. apply sumR_not_fuel. intros n _.
  apply bind_not_fuel; [apply dict_get_not_fuel|]. intros dn _.
  apply sumR_not_fuel. intros nw _. unfold disagree.
  destruct (overlaps cw var n) as [[i j]|]; [|done].
  apply bind_not_fuel; [apply str_index_not_fuel|]. intros c1 _.
  apply bind_not_fuel; [apply str_index_not_fuel|done].
Qed.

End Heuristics.

(** ** Backtracking search *)

Section Backtrack.
Context (cw : Crossword).

Lemma assignment_complete_spec (a : assignment) :
  assignment_complete cw a = true ↔ ∀ v, v ∈ variables cw ↔ is_Some (dict_lookup a v).
Proof.
  unfold assignment_complete. rewrite bool_decide_eq_true. split.
  - intros <- v. by rewrite elem_of_list_to_set, dict_lookup_is_Some.
  - intros H. apply set_eq. intros v. by rewrite elem_of_list_to_set, H, dict_lookup_is_Some.
Qed.

Lemma truthy_false (r : retval) (a : assignment) :
  truthy r a = false → r = RetNone ∨ (r = RetAssignment ∧ a = []).
Proof.
  destruct r; simpl; [auto|]. intros H%bool_decide_eq_false_1. right.
  split; [done|]. by apply dec_stable.
Qed.

Lemma truthy_true (r : retval) (a : assignment) : truthy r a = true → r = RetAssignment.
Proof. by destruct r. Qed.

Lemma dict_del_nil var : dict_del [] var = Raise KeyError.
Proof. done. Qed.

(** A failed run of the value loop leaves the assignment as it found it,
    provided the recursive calls do. *)
Lemma backtrack_values_restore
    (recurse : assignment → result (retval * assignment)) var values (a a' : assignment) :
  (∀ a1 a2, recurse a1 = Ok (RetNone, a2) → a2 = a1) →
  dict_lookup a var = None →
  backtrack_values cw recurse var values a = Ok (RetNone, a') → a' = a.
Proof.
  intros Hrec Hnone. induction values as [|value rest IH]; simpl; intros H.
  - by inv_ok.
  - inv_ok. destruct a0.
    + inv_ok. destruct a0 as [r a2]. destruct (truthy r a2) eqn:Ht.
      * apply truthy_true in Ht. inv_ok. congruence.
      * inv_ok. apply truthy_false in Ht as [->|[-> ->]]; [|by rewrite dict_del_nil in E1].
        apply Hrec in E0 as ->. rewrite dict_del_set_fresh in E1 by done.
        inv_ok. by apply IH.
    + inv_ok. rewrite dict_del_set_fresh in E0 by done. inv_ok. by apply IH.
Qed.

Lemma backtrack_fuel_restore fuel (doms : domains) (a a' : assignment) :
  backtrack_fuel cw fuel doms a = Ok (RetNone, a') → a' = a.
Proof.
  revert a a'. induction fuel as [|fuel IH]; intros a a' H; simpl in H; [done|].
  destruct (assignment_complete cw a); [done|]. inv_ok.
  apply select_inv in E as (_ & Hnone & _).
  eapply backtrack_values_restore; [|done|done]. intros s1 s2. apply IH.
Qed.

(** An assignment returned by the value loop is complete and passed the
    consistency check. *)
Lemma backtrack_values_found
    (recurse : assignment → result (retval * assignment)) var values (a a' : assignment) :
  (∀ a1 a2, recurse a1 = Ok (RetAssignment, a2) →
            assignment_complete cw a2 = true ∧ (a2 = a1 ∨ consistent cw a2 = Ok true)) →
  backtrack_values cw recurse var values a = Ok (RetAssignment, a') →
  assignment_complete cw a' = true ∧ consistent cw a' = Ok true.
Proof.
  intros Hrec. revert a. induction values as [|value rest IH]; simpl; intros a H.
  - by inv_ok.
  - inv_ok. destruct a0.
    + inv_ok. destruct a0 as [r a2]. destruct (truthy r a2) eqn:Ht.
      * apply truthy_true in Ht as ->. inv_ok.
        destruct (Hrec _ _ E0) as [Hc [->|Hcons]]; auto.
      * inv_ok. by eapply IH.
    + inv_ok. by eapply IH.
Qed.

Lemma backtrack_fuel_found fuel (doms : domains) (a a' : assignment) :
  backtrack_fuel cw fuel doms a = Ok (RetAssignment, a') →
  assignment_complete cw a' = true ∧ (a' = a ∨ consistent cw a' = Ok true).
Proof.
  revert a a'. induction fuel as [|fuel IH]; intros a a' H; simpl in H; [done|].
  destruct (assignment_complete cw a) eqn:Hc; [inv_ok; auto|]. inv_ok.
  eapply backtrack_values_found in H as [? ?]; [auto|]. intros s1 s2. apply IH.
Qed.

Lemma dict_lookup_app_None (a : assignment) var value v :
  dict_lookup (a ++ [(var, value)]) v = None ↔ dict_lookup a v = None ∧ v ≠ var.
Proof.
  rewrite !dict_lookup_None, fmap_app, not_elem_of_app. simpl.
  rewrite list_elem_of_singleton. tauto.
Qed.

Lemma unassigned_shrinks (a : assignment) var value :
  var ∈ variables cw → dict_lookup a var = None →
  length (unassigned_variables cw (dict_set a var value))
  < length (unassigned_variables cw a).
Proof.
  intros Hv Hnone. rewrite dict_set_fresh by done. unfold unassigned_variables.
  assert (filter (λ v, dict_lookup (a ++ [(var, value)]) v = None) (elements (variables cw))
          = filter (λ v, v ≠ var)
              (filter (λ v, dict_lookup a v = None) (elements (variables cw)))) as ->.
  { rewrite list_filter_filter. apply list_filter_iff. intros v.
    rewrite dict_lookup_app_None. tauto. }
  apply (length_filter_lt _ _ var); [|by intros ?].
  apply list_elem_of_filter. split; [done|]. by apply elem_of_elements.
Qed.

Lemma backtrack_values_not_fuel
    (recurse : assignment → result (retval * assignment)) var values (a : assignment) :
  (∀ a1 a2, recurse a1 = Ok (RetNone, a2) → a2 = a1) →
  (∀ value, recurse (dict_set a var value) ≠ OutOfFuel) →
  dict_lookup a var = None →
  backtrack_values cw recurse var values a ≠ OutOfFuel.
Proof.
  intros Hrec Hfuel Hnone. induction values as [|value rest IH]; simpl; [done|].
  apply bind_not_fuel; [apply consistent_not_fuel|]. intros [] _.
  - apply bind_not_fuel; [apply Hfuel|]. intros [r a2] Hr.
    destruct (truthy r a2) eqn:Ht; [done|].
    apply truthy_false in Ht as [->|[-> ->]]; [|by rewrite dict_del_nil].
    apply Hrec in Hr as ->. by rewrite dict_del_set_fresh.
  - by rewrite dict_del_set_fresh.
Qed.

(** The depth granted to the recursion is never used up. *)
Lemma backtrack_fuel_not_fuel fuel (doms : domains) (a : assignment) :
  length (unassigned_variables cw a) < fuel →
  backtrack_fuel cw fuel doms a ≠ OutOfFuel.
Proof.
  revert a. induction fuel as [|fuel IH]; intros a Hlen; [lia|]. simpl.
  destruct (assignment_complete cw a); [done|].
  apply bind_not_fuel; [apply select_not_fuel|]. intros var Hsel.
  apply select_inv in Hsel as (Hv & Hnone & _).
  apply bind_not_fuel; [apply order_not_fuel|]. intros values _.
  apply backtrack_values_not_fuel; [|intros value|done].
  - intros s1 s2. apply backtrack_fuel_restore.
  - apply IH. pose proof (unassigned_shrinks a var value Hv Hnone). lia.
Qed.

Lemma unassigned_le (a : assignment) :
  length (unassigned_variables cw a) ≤ size (variables cw).
Proof.
  unfold unassigned_variables.
  pose proof (length_filter (λ var, dict_lookup a var = None) (elements (variables cw))) as Hle.
  unfold size, set_size. simpl. lia.
Qed.

Lemma backtrack_not_fuel (doms : domains) (a : assignment) :
  backtrack cw doms a ≠ OutOfFuel.
Proof. apply backtrack_fuel_not_fuel. pose proof (unassigned_le a). lia. Qed.

(** With a variable whose domain is empty the search fails at once: the
    variable selected has a smallest domain, hence no value to try. *)
Lemma backtrack_empty_domain fuel (doms : domains) v :
  v ∈ variables cw → doms !! v = Some ∅ →
  (∀ u, u ∈ variables cw → is_Some (doms !! u)) →
  backtrack_fuel cw (S fuel) doms [] = Ok (RetNone, []).
Proof.
  intros Hv Hempty Hdom. simpl.
  assert (assignment_complete cw [] = false) as ->.
  { apply not_true_is_false. intros Hc.
    pose proof (proj1 (assignment_complete_spec []) Hc v) as Hiff.
    apply Hiff in Hv as [? ?]. done. }
  destruct (select_Ok cw doms [] v Hv eq_refl) as [var Hsel]; [by auto|].
  rewrite Hsel. simpl. apply select_inv in Hsel as (_ & _ & d & Hd & Hmin).
  destruct (Hmin v Hv eq_refl) as (d' & Hd' & Hle). rewrite Hempty in Hd'.
  injection Hd' as <-. rewrite size_empty in Hle.
  assert (d = ∅) as ->.
  { apply leibniz_equiv, size_empty_iff. lia. }
  unfold order_domain_values. rewrite (proj2 (dict_get_Ok _ _ _) Hd). simpl.
  by rewrite elements_empty.
Qed.

End Backtrack.

(** * The properties of the specification *)

Lemma consistent_nil cw : consistent cw [] = Ok true.
Proof. unfold consistent. rewrite fmap_nil, list_to_set_nil, size_empty. done. Qed.

(** C1. Whenever [solve] returns an assignment, it assigns a word to every
    variable of the instance and meets the three constraints: every word
    has the length of its variable, the words are pairwise distinct, and
    assigned neighbors carry the same letter where they overlap. *)
Theorem solve_returns_solution (cw : Crossword) (doms doms' : domains) (a : assignment) :
  solve cw doms = Ok (Some a, doms') → complete cw a ∧ satisfies cw a.
Proof.
  unfold solve, solve_with. intros H. inv_ok. destruct a0 as [ok doms2].
  destruct ok; simpl in H; [|by inv_ok].
  inv_ok. destruct a0 as [r a']. destruct r; inv_ok.
  apply backtrack_fuel_found in E0 as [Hc Hcons]. split.
  - intros v Hv. by apply (proj1 (assignment_complete_spec cw a) Hc).
  - apply consistent_sound. destruct Hcons as [->|]; [apply consistent_nil|done].
Qed.

Lemma solve_returns_solution_witness :
  solve ex_cw (init_domains ex_cw)
    = Ok (Some ex_solution, enforce_node_consistency (init_domains ex_cw)) ∧
  complete ex_cw ex_solution ∧ satisfies ex_cw ex_solution.
Proof.
  assert (H : solve ex_cw (init_domains ex_cw)
              = Ok (Some ex_solution, enforce_node_consistency (init_domains ex_cw))).
  { vm_compute. reflexivity. }
  split; [exact H|].
  exact (solve_returns_solution ex_cw (init_domains ex_cw)
           (enforce_node_consistency (init_domains ex_cw)) ex_solution H).
Defined.

(** C2. When the AC-3 pass run by [solve] reports failure, [solve] returns
    the unsatisfiable result and the search is not invoked: the result is
    the same whatever search procedure [solve] would hand over to. *)
Theorem solve_ac3_failure (cw : Crossword) (doms doms2 : domains) :
  ac3 cw (Some (all_arcs cw (enforce_node_consistency doms)))
      (enforce_node_consistency doms) = Ok (false, doms2) →
  solve cw doms = Ok (None, doms2) ∧
  ∀ search, solve_with cw search doms = Ok (None, doms2).
Proof.
  intros H. unfold solve, solve_with. by rewrite H.
Qed.

Lemma solve_ac3_failure_witness :
  solve ex_unsat (init_domains ex_unsat)
    = Ok (None, <[ex_across2 := ∅]> (enforce_node_consistency (init_domains ex_unsat))) ∧
  ∀ search, solve_with ex_unsat search (init_domains ex_unsat)
    = Ok (None, <[ex_across2 := ∅]> (enforce_node_consistency (init_domains ex_unsat))).
Proof.
  apply (solve_ac3_failure ex_unsat (init_domains ex_unsat)).
  vm_compute. reflexivity.
Defined.

Lemma ac3_success_arcs_nonempty (cw : Crossword) (arcs : option (list arc))
    (doms doms' : domains) v :
  arcs ≠ Some [] → ac3 cw arcs doms = Ok (true, doms') → doms' !! v ≠ Some ∅.
Proof.
  intros Hne. unfold ac3. destruct arcs as [[|x l]|]; [done| |];
    intros H%ac3_loop_true Hv; by apply (H v ∅).
Qed.

(** C3, as stated, fails: given an explicitly empty arc list [ac3] answers
    [True] without looking at the domains, here with an empty one. *)
Lemma ac3_empty_arcs_counterexample :
  ac3 ex_single (Some []) ex_empty_domain = Ok (true, ex_empty_domain) ∧
  ex_empty_domain !! ex_across = Some ∅ ∧
  ¬ domains_nonempty ex_empty_domain.
Proof.
  split; [reflexivity|]. split; [reflexivity|].
  intros H. by apply (H ex_across ∅).
Qed.

(** C3, amended. For the default argument and for every non-empty arc
    list, whenever [ac3] answers [True] no variable has an empty domain;
    for the explicitly empty list it answers [True] at once and leaves the
    domains as they are, empty or not. *)
Theorem ac3_success_nonempty (cw : Crossword) (arcs : option (list arc))
    (doms doms' : domains) :
  ac3 cw (Some []) doms = Ok (true, doms) ∧
  (arcs ≠ Some [] → ac3 cw arcs doms = Ok (true, doms') → domains_nonempty doms').
Proof.
  split; [done|].
  intros Hne. unfold ac3. destruct arcs as [[|x l]|]; [done| |]; apply ac3_loop_true.
Qed.

Lemma ac3_success_nonempty_witness :
  domains_nonempty (enforce_node_consistency (init_domains ex_cw)).
Proof.
  apply (proj2 (ac3_success_nonempty ex_cw None
                  (enforce_node_consistency (init_domains ex_cw))
                  (enforce_node_consistency (init_domains ex_cw)))).
  - discriminate.
  - vm_compute. reflexivity.
Defined.

(** C4. Without an overlap entry [revise(x, y)] changes nothing and returns
    [False]. With the entry [(i, j)], the domains present and the indices
    within the words read, it keeps in [x]'s domain exactly the words whose
    letter at index [i] occurs at index [j] of some word of [y]'s domain,
    leaves the other domains alone, and returns [True] exactly when a word
    was removed. *)
Theorem revise_spec (cw : Crossword) (x y : Var) (doms : domains) :
  (overlaps cw x y = None → revise cw x y doms = Ok (false, doms)) ∧
  (∀ i j dx dy,
      overlaps cw x y = Some (i, j) → doms !! x = Some dx → doms !! y = Some dy →
      (∀ w, w ∈ dx → i < String.length w) →
      (∀ w, w ∈ dy → j < String.length w) →
      ∃ b dx',
        revise cw x y doms = Ok (b, <[x := dx']> doms) ∧
        (∀ w, w ∈ dx' ↔
              w ∈ dx ∧ ∃ c w', String.get i w = Some c ∧ w' ∈ dy ∧
                               String.get j w' = Some c) ∧
        (b = true ↔ ∃ w, w ∈ dx ∧ w ∉ dx')).
Proof.
  split.
  - intros Hov. unfold revise. by rewrite Hov.
  - intros i j dx dy Hov Hx Hy Hdx Hdy.
    exists (bool_decide (revised_domain i j dx dy ≠ dx)), (revised_domain i j dx dy).
    split; [|split].
    + apply revise_Ok; try done; intros w Hw; apply get_is_Some; auto.
    + intros w. unfold revised_domain. rewrite elem_of_filter. unfold supported.
      split.
      * intros [Hsup Hw]. split; [done|].
        destruct (String.get i w) as [c|]; [|done].
        destruct Hsup as (w' & Hw' & Hc). eauto.
      * intros [Hw (c & w' & Hc & Hw' & Hc')]. split; [|done]. rewrite Hc.
        exists w'. eauto.
    + rewrite bool_decide_eq_true. split.
      * intros Hne. destruct (decide (∃ w, w ∈ dx ∧ w ∉ revised_domain i j dx dy))
          as [|Hno]; [done|].
        exfalso. apply Hne. apply set_eq. intros w.
        split; [apply revised_domain_subseteq|]. intros Hw.
        destruct (decide (w ∈ revised_domain i j dx dy)); [done|].
        exfalso. apply Hno. eauto.
      * intros (w & Hw & Hnw) Heq. apply Hnw. by rewrite Heq.
Qed.

Lemma revise_spec_witness :
  ∃ b dx',
    revise ex_unsat ex_across2 ex_down (enforce_node_consistency (init_domains ex_unsat))
      = Ok (b, <[ex_across2 := dx']> (enforce_node_consistency (init_domains ex_unsat))) ∧
    (∀ w, w ∈ dx' ↔
          w ∈ ({["CAT"; "DOG"]} : gset string) ∧
          ∃ c w', String.get 0 w = Some c ∧ w' ∈ ({["CAT"; "DOG"]} : gset string) ∧
                  String.get 2 w' = Some c) ∧
    (b = true ↔ ∃ w, w ∈ ({["CAT"; "DOG"]} : gset string) ∧ w ∉ dx').
Proof.
  apply (proj2 (revise_spec ex_unsat ex_across2 ex_down
                  (enforce_node_consistency (init_domains ex_unsat)))
           0 2 {["CAT"; "DOG"]} {["CAT"; "DOG"]}).
  - reflexivity.
  - vm_compute. reflexivity.
  - vm_compute. reflexivity.
  - intros w [->%elem_of_singleton| ->%elem_of_singleton]%elem_of_union; simpl; lia.
  - intros w [->%elem_of_singleton| ->%elem_of_singleton]%elem_of_union; simpl; lia.
Defined.

(** C5. On a dict, [consistent] returns [True] exactly when the three
    constraints hold over the assigned variables: distinct words, fitting
    lengths, and equal letters where assigned neighbors overlap. Variables
    without a word do not enter the constraints, nor the result. *)
Theorem consistent_iff_satisfies (cw : Crossword) (a : assignment) :
  dict_wf a → consistent cw a = Ok true ↔ satisfies cw a.
Proof.
  intros Hwf. split; [apply consistent_sound|by apply consistent_complete].
Qed.

Lemma consistent_iff_satisfies_witness :
  consistent ex_cw ex_solution = Ok true ↔ satisfies ex_cw ex_solution.
Proof.
  apply (consistent_iff_satisfies ex_cw ex_solution).
  unfold dict_wf. apply (bool_decide_unpack _). vm_compute. exact I.
Defined.

(** C6. Right after [enforce_node_consistency] every word of every domain
    has the length of its variable; [revise] and [ac3] only remove words,
    so they keep it that way, and the domains [solve] ends with have the
    property still. *)
Theorem node_consistency_invariant (cw : Crossword) (doms : domains) :
  node_consistent (enforce_node_consistency doms) ∧
  (∀ x y d b d', revise cw x y d = Ok (b, d') →
                 shrinks d' d ∧ (node_consistent d → node_consistent d')) ∧
  (∀ arcs d b d', ac3 cw arcs d = Ok (b, d') →
                  shrinks d' d ∧ (node_consistent d → node_consistent d')) ∧
  (∀ o doms', solve cw doms = Ok (o, doms') → node_consistent doms').
Proof.
  split; [apply enforce_node_consistent|]. split; [|split].
  - intros x y d b d' H%revise_shrinks. split; [done|]. by apply shrinks_node_consistent.
  - intros arcs d b d' H%ac3_shrinks. split; [done|]. by apply shrinks_node_consistent.
  - intros o doms' H. unfold solve, solve_with in H. inv_ok. destruct a as [ok doms2].
    assert (node_consistent doms2) as Hn.
    { eapply shrinks_node_consistent; [by eapply ac3_shrinks|apply enforce_node_consistent]. }
    destruct ok; simpl in H; inv_ok; [|done]. destruct a as [r a']. by inv_ok.
Qed.

(** C7. With the default arc set, a second run of [ac3] after a successful
    one succeeds again and changes no domain. The neighbor sets and the
    overlap table are those of a crossword: symmetric. *)
Theorem ac3_idempotent (cw : Crossword) (doms doms' : domains) :
  neighbors_symmetric cw → overlaps_symmetric cw →
  ac3 cw None doms = Ok (true, doms') →
  ac3 cw None doms' = Ok (true, doms').
Proof.
  intros Hn Ho H. unfold ac3 in *.
  assert (Hcons : ∀ x y, (x, y) ∈ all_arcs cw doms' → arc_consistent cw doms' x y).
  { intros x y [Hx Hy]%elem_of_all_arcs.
    eapply ac3_loop_establishes; eauto.
    intros u v Hu Hv. left. by apply elem_of_all_arcs. }
  rewrite ac3_loop_consistent; [|done|unfold ac3_fuel; lia].
  apply ac3_loop_true in H. by rewrite (proj2 (all_nonempty_spec doms') H).
Qed.

Lemma crossing_neighbors_symmetric x y vars ws ov :
  neighbors_symmetric (mkCrossword vars ws (crossing_neighbors x y) ov).
Proof.
  intros u v. simpl. unfold crossing_neighbors.
  repeat case_decide; subst; set_solver.
Qed.

Lemma crossing_overlaps_symmetric x y i j vars ws nb :
  x ≠ y → overlaps_symmetric (mkCrossword vars ws nb (crossing x y i j)).
Proof.
  intros Hxy u v i' j'. simpl. unfold crossing.
  repeat case_decide; naive_solver.
Qed.

Lemma ac3_idempotent_witness :
  ac3 ex_cw None (enforce_node_consistency (init_domains ex_cw))
    = Ok (true, enforce_node_consistency (init_domains ex_cw)).
Proof.
  apply (ac3_idempotent ex_cw (enforce_node_consistency (init_domains ex_cw))).
  - apply crossing_neighbors_symmetric.
  - by apply crossing_overlaps_symmetric.
  - vm_compute. reflexivity.
Defined.

(** On node-consistent domains, with overlap indices within the variables'
    lengths and all arcs between variables that have a domain, the loop of
    [ac3] raises nothing. *)
Lemma ac3_loop_no_raise (cw : Crossword) fuel queue (doms : domains) e :
  overlaps_in_range cw → node_consistent doms →
  (∀ x y, (x, y) ∈ queue → x ∈ dom doms ∧ y ∈ dom doms) →
  (∀ x z, x ∈ dom doms → z ∈ neighbors cw x → z ∈ dom doms) →
  ac3_loop cw fuel queue doms ≠ Raise e.
Proof.
  intros Hrange. revert queue doms.
  induction fuel as [|fuel IH]; intros queue doms Hnode Hq Hnb; simpl; [done|].
  destruct queue as [|[x y] queue]; [done|].
  assert (Hrev : ∃ b doms1, revise cw x y doms = Ok (b, doms1)).
  { destruct (overlaps cw x y) as [[i j]|] eqn:Hov.
    - destruct (Hq x y) as [[dx Hx]%elem_of_dom [dy Hy]%elem_of_dom]; [left|].
      destruct (Hrange _ _ _ _ Hov) as [Hi Hj].
      eexists _, _. apply (revise_Ok cw x y doms i j dx dy); try done.
      + intros w Hw. apply get_is_Some. by rewrite (Hnode x dx w Hx Hw).
      + intros w Hw. apply get_is_Some. by rewrite (Hnode y dy w Hy Hw).
    - exists false, doms. unfold revise. by rewrite Hov. }
  destruct Hrev as (b & doms1 & Hrev). rewrite Hrev. simpl.
  pose proof (revise_shrinks _ _ _ _ _ _ Hrev) as Hs.
  pose proof (shrinks_dom _ _ Hs) as Hdom.
  assert (Hx1 : b = true → ∃ dx1, doms1 !! x = Some dx1).
  { intros ->. apply revise_inv in Hrev as [(_ & [=] & _)|(i & j & dx & dy & _ & _ & _ & _ & _ & -> & _)].
    rewrite lookup_insert_eq. eauto. }
  destruct b.
  - destruct (Hx1 eq_refl) as [dx1 Hdx1]. rewrite (proj2 (dict_get_Ok _ _ _) Hdx1). simpl.
    case_bool_decide; [done|]. apply IH.
    + by eapply shrinks_node_consistent.
    + rewrite Hdom. intros u v [Huv|Huv]%elem_of_app.
      * apply Hq. by right.
      * apply list_elem_of_fmap in Huv as (z & [= -> ->] & Hz%elem_of_elements).
        apply elem_of_difference in Hz as [Hz _].
        assert (x ∈ dom doms) as Hx by (rewrite <- Hdom; apply elem_of_dom; eauto).
        eauto.
    + by rewrite Hdom.
  - apply IH.
    + by eapply shrinks_node_consistent.
    + rewrite Hdom. intros u v Huv. apply Hq. by right.
    + by rewrite Hdom.
Qed.

Lemma init_domains_lookup (cw : Crossword) v :
  init_domains cw !! v = if decide (v ∈ variables cw) then Some (words cw) else None.
Proof.
  unfold init_domains. rewrite lookup_gset_to_gmap.
  destruct (decide (v ∈ variables cw)); [by rewrite option_guard_True|by rewrite option_guard_False].
Qed.

Lemma length_zero_empty (w : string) : String.length w = 0 → w = ""%string.
Proof. by destruct w. Qed.

(** C8, as stated, fails: [solve] checks nothing about the instance. With a
    slot of length zero it returns the ordinary unsatisfiable result. With
    an overlap table that the neighbor sets ignore it returns an assignment,
    the only one the word lengths allow, although the two words differ at
    the overlap. Neither run raises an error. *)
Lemma solve_malformed_counterexample :
  (malformed ex_zero ∧
   solve ex_zero (init_domains ex_zero)
     = Ok (None, enforce_node_consistency (init_domains ex_zero))) ∧
  (malformed ex_no_neighbors ∧
   ∃ a, solve ex_no_neighbors (init_domains ex_no_neighbors)
          = Ok (Some a, enforce_node_consistency (init_domains ex_no_neighbors)) ∧
        dict_lookup a ex_across = Some "CAT"%string ∧
        dict_lookup a ex_down4 = Some "DOGS"%string ∧
        overlaps ex_no_neighbors ex_across ex_down4 = Some (1, 1) ∧
        String.get 1 "CAT" ≠ String.get 1 "DOGS").
Proof.
  split; split.
  - left. exists ex_zero_var. split; [|reflexivity]. apply elem_of_union. left.
    by apply elem_of_singleton.
  - vm_compute. reflexivity.
  - right. intros H.
    assert (ex_down4 ∈ neighbors ex_no_neighbors ex_across) as Hin.
    { apply H; [| |by eexists].
      - apply elem_of_union. left. by apply elem_of_singleton.
      - apply elem_of_union. right. by apply elem_of_singleton. }
    by apply elem_of_empty in Hin.
  - exists [(ex_down4, "DOGS"%string); (ex_across, "CAT"%string)].
    split; [vm_compute; reflexivity|]. repeat split; discriminate.
Qed.

(** C8, amended. [solve] performs no validation and raises no error of its
    own. On an instance with a variable of length zero, no empty word in the
    pool, overlap indices within the variables' lengths and neighbor sets
    within the instance, it runs as on any instance and returns the ordinary
    unsatisfiable result. *)
Theorem solve_zero_length_unsat (cw : Crossword) (v : Var) :
  v ∈ variables cw → var_length v = 0 → ""%string ∉ words cw →
  overlaps_in_range cw → neighbors_closed cw →
  ∃ doms', solve cw (init_domains cw) = Ok (None, doms').
Proof.
  intros Hv Hlen Hempty Hrange Hclosed.
  unfold solve, solve_with.
  set (doms1 := enforce_node_consistency (init_domains cw)).
  assert (Hdom1 : ∀ u, u ∈ dom doms1 ↔ u ∈ variables cw).
  { intros u. rewrite elem_of_dom. unfold doms1.
    rewrite enforce_lookup, init_domains_lookup.
    case_decide; simpl; split; (done || by intros [? ?] || eauto). }
  assert (Hv1 : doms1 !! v = Some ∅).
  { unfold doms1. rewrite enforce_lookup, init_domains_lookup, decide_True by done.
    simpl. f_equal. apply set_eq. intros w. unfold node_filter.
    rewrite elem_of_filter, Hlen. split; [|by intros ?%elem_of_empty].
    intros [->%length_zero_empty Hw]. done. }
  assert (Hnode1 : node_consistent doms1) by apply enforce_node_consistent.
  destruct (ac3 cw (Some (all_arcs cw doms1)) doms1) as [[ok doms2]|e|] eqn:Hac3; simpl.
  - destruct ok; simpl; [|eauto].
    assert (doms2 !! v = Some ∅) as Hv2.
    { pose proof (ac3_shrinks _ _ _ _ _ Hac3 v) as Hs. rewrite Hv1 in Hs.
      destruct (doms2 !! v) as [d|]; [|done]. f_equal. set_solver. }
    assert (all_arcs cw doms1 = []) as Harcs.
    { destruct (all_arcs cw doms1) as [|arc0 l] eqn:Harcs; [done|]. exfalso.
      eapply (ac3_success_arcs_nonempty cw (Some (arc0 :: l))); eauto. }
    rewrite Harcs in Hac3. simpl in Hac3. injection Hac3 as <-.
    unfold backtrack. rewrite (backtrack_empty_domain cw _ doms1 v); simpl; eauto.
    intros u Hu. apply elem_of_dom. by apply Hdom1.
  - exfalso. unfold ac3 in Hac3.
    destruct (all_arcs cw doms1) as [|arc0 l] eqn:Harcs; [done|].
    eapply (ac3_loop_no_raise cw); [done|exact Hnode1| | |exact Hac3].
    + intros x y Hxy. rewrite <- Harcs in Hxy. apply elem_of_all_arcs in Hxy as [Hx Hy].
      split; [done|]. apply Hdom1. eapply Hclosed; [|done]. by apply Hdom1.
    + intros x z Hx Hz. apply Hdom1. eapply Hclosed; [|done]. by apply Hdom1.
  - by apply ac3_not_fuel in Hac3.
Qed.

Lemma solve_zero_length_unsat_witness :
  ∃ doms', solve ex_zero (init_domains ex_zero) = Ok (None, doms').
Proof.
  apply (solve_zero_length_unsat ex_zero ex_zero_var).
  - apply elem_of_union. left. by apply elem_of_singleton.
  - reflexivity.
  - apply (bool_decide_unpack _). vm_compute. exact I.
  - intros x y i j. discriminate.
  - intros x y _ Hy. by apply elem_of_empty in Hy.
Defined.

(** C9. With a domain for [var] and, for every unassigned neighbor, a
    domain and an overlap entry whose indices are within the words read,
    [order_domain_values] returns the words of [var]'s current domain, each
    once, in ascending order of the least-constraining-value score: the
    number of words in the unassigned neighbors' current domains that
    differ from the word at the overlap. *)
Theorem order_domain_values_lcv (cw : Crossword) (doms : domains) (var : Var)
    (a : assignment) (d : gset string) :
  doms !! var = Some d →
  (∀ n, n ∈ neighbors cw var → dict_lookup a n = None →
        ∃ i j dn, overlaps cw var n = Some (i, j) ∧ doms !! n = Some dn ∧
                  (∀ w, w ∈ d → i < String.length w) ∧
                  (∀ nw, nw ∈ dn → j < String.length nw)) →
  ∃ l, order_domain_values cw doms var a = Ok l ∧ l ≡ₚ elements d ∧
       StronglySorted (λ w1 w2, lcv_score cw doms var a w1 ≤ lcv_score cw doms var a w2) l.
Proof.
  intros Hd Hn. unfold order_domain_values.
  rewrite (proj2 (dict_get_Ok _ _ _) Hd). simpl.
  rewrite (mapR_keyed_Ok _ (lcv_score cw doms var a)).
  2:{ intros w Hw%elem_of_elements. apply lcv_key_Ok. intros n Hnb Hnone.
      destruct (Hn n Hnb Hnone) as (i & j & dn & ? & ? & Hi & ?). eauto 10. }
  simpl. eexists. split; [done|]. split.
  - rewrite sort_keyed_perm. by rewrite fmap_snd_keyed.
  - apply StronglySorted_fmap_snd; [|apply sort_keyed_sorted].
    intros y z Hy Hz Hle.
    rewrite sort_keyed_perm in Hy, Hz.
    apply list_elem_of_fmap in Hy as (wy & -> & _), Hz as (wz & -> & _). done.
Qed.

Lemma order_domain_values_lcv_witness :
  ∃ l, order_domain_values ex_cw (enforce_node_consistency (init_domains ex_cw)) ex_across [] = Ok l ∧
       l ≡ₚ elements ({["CAT"; "DOG"; "ACE"; "ICE"]} : gset string) ∧
       StronglySorted
         (λ w1 w2,
            lcv_score ex_cw (enforce_node_consistency (init_domains ex_cw)) ex_across [] w1
            ≤ lcv_score ex_cw (enforce_node_consistency (init_domains ex_cw)) ex_across [] w2) l.
Proof.
  apply (order_domain_values_lcv ex_cw (enforce_node_consistency (init_domains ex_cw))
           ex_across [] {["CAT"; "DOG"; "ACE"; "ICE"]}).
  - vm_compute. reflexivity.
  - intros n Hn _.
    change (n ∈ ({[ex_down]} : gset Var)) in Hn. apply elem_of_singleton in Hn as ->.
    exists 1, 1, {["CAT"; "DOG"; "ACE"; "ICE"]}.
    split; [reflexivity|]. split; [vm_compute; reflexivity|].
    split; apply (bool_decide_unpack (set_Forall _ _)); vm_compute; exact I.
Defined.

(** The order computed on the crossing slots: the two words that rule out
    two words of the other slot come before the two that rule out three. *)
Example order_domain_values_ex :
  order_domain_values ex_cw (enforce_node_consistency (init_domains ex_cw)) ex_across []
  = Ok ["ICE"; "ACE"; "CAT"; "DOG"]%string.
Proof. vm_compute. reflexivity. Qed.

(** C10. When [backtrack] returns [None] the assignment dict holds exactly
    the entries it held at the call, in the same order: every tentative
    extension was deleted again. *)
Theorem backtrack_failure_restores (cw : Crossword) (doms : domains) (a a' : assignment) :
  backtrack cw doms a = Ok (RetNone, a') → a' = a.
Proof. unfold backtrack. apply backtrack_fuel_restore. Qed.

Lemma backtrack_failure_restores_witness :
  backtrack ex_one_word (enforce_node_consistency (init_domains ex_one_word))
            [(ex_down, "CAT"%string)]
    = Ok (RetNone, [(ex_down, "CAT"%string)]) ∧
  [(ex_down, "CAT"%string)] = [(ex_down, "CAT"%string)].
Proof.
  assert (H : backtrack ex_one_word (enforce_node_consistency (init_domains ex_one_word))
                [(ex_down, "CAT"%string)]
              = Ok (RetNone, [(ex_down, "CAT"%string)])).
  { vm_compute. reflexivity. }
  split; [exact H|].
  exact (backtrack_failure_restores ex_one_word _ _ _ H).
Defined.

(** The search never uses up the depth it is granted, and [ac3] never the
    iterations: [solve] returns or raises. *)
Lemma solve_not_fuel (cw : Crossword) (doms : domains) : solve cw doms ≠ OutOfFuel.
Proof.
  unfold solve, solve_with. apply bind_not_fuel; [apply ac3_not_fuel|].
  intros [ok doms2] _. destruct ok; simpl; [|done].
  apply bind_not_fuel; [apply backtrack_not_fuel|]. by intros [r a] _.
Qed.

(** ** A well-formed instance is always answered *)

Lemma allR_returns {A : Type} (p : A → result bool) l :
  (∀ x, x ∈ l → ∃ b, p x = Ok b) → ∃ b, allR p l = Ok b.
Proof.
  induction l as [|x l IH]; intros Hp; simpl; [eauto|].
  destruct (Hp x) as [b Hb]; [left|]. rewrite Hb. simpl.
  destruct b; [|eauto]. apply IH. intros; apply Hp. by right.
Qed.

Section Returns.
Context (cw : Crossword) (doms : domains).
Hypothesis Hwf : well_formed cw.
Hypothesis Hnode : node_consistent doms.
Hypothesis Hdom : ∀ v, v ∈ variables cw → is_Some (doms !! v).

Lemma drawn_from_length (a : assignment) v w :
  drawn_from cw doms a → dict_lookup a v = Some w →
  v ∈ variables cw ∧ String.length w = var_length v.
Proof.
  intros Hd Hv%dict_lookup_elem. destruct (Hd v w Hv) as (Hvar & d & Hdv & Hw).
  split; [done|]. by eapply Hnode.
Qed.

Lemma consistent_returns (a : assignment) :
  drawn_from cw doms a → ∃ b, consistent cw a = Ok b.
Proof.
  intros Hd. destruct Hwf as (Hrange & Hclosed & Hov).
  unfold consistent. case_bool_decide; [eauto|].
  apply allR_returns. intros [v w] Hin. unfold check_item. simpl.
  case_bool_decide as Hlen; [eauto|].
  destruct (Hd v w Hin) as (Hv & _).
  apply allR_returns. intros n Hn%elem_of_elements. unfold check_neighbor.
  destruct (dict_lookup a n) as [nw|] eqn:Hnw; [|eauto].
  destruct (drawn_from_length a n nw Hd Hnw) as [Hnv Hnlen].
  destruct (proj1 (Hov v n Hv Hnv) Hn) as [[i j] Hij]. rewrite Hij.
  destruct (Hrange _ _ _ _ Hij) as [Hi Hj].
  destruct (get_is_Some i w) as [c1 Hc1]; [lia|].
  destruct (get_is_Some j nw) as [c2 Hc2]; [lia|].
  rewrite (proj2 (str_index_Ok _ _ _) Hc1), (proj2 (str_index_Ok _ _ _) Hc2). simpl. eauto.
Qed.

Lemma order_returns (a : assignment) var :
  var ∈ variables cw → ∃ l, order_domain_values cw doms var a = Ok l.
Proof.
  intros Hv. destruct Hwf as (Hrange & Hclosed & Hov).
  destruct (Hdom var Hv) as [d Hd]. unfold order_domain_values.
  rewrite (proj2 (dict_get_Ok _ _ _) Hd). simpl.
  rewrite (mapR_keyed_Ok _ (lcv_score cw doms var a)); [simpl; eauto|].
  intros w Hw%elem_of_elements. apply lcv_key_Ok.
  intros n Hn _. pose proof (Hclosed var n Hv Hn) as Hnv.
  destruct (Hdom n Hnv) as [dn Hdn].
  destruct (proj1 (Hov var n Hv Hnv) Hn) as [[i j] Hij].
  destruct (Hrange _ _ _ _ Hij) as [Hi Hj].
  exists i, j, dn. repeat split; try done.
  - by rewrite (Hnode var d w Hd Hw).
  - intros nw Hnw. by rewrite (Hnode n dn nw Hdn Hnw).
Qed.

Lemma drawn_from_set (a : assignment) var value d :
  drawn_from cw doms a → dict_lookup a var = None →
  var ∈ variables cw → doms !! var = Some d → value ∈ d →
  drawn_from cw doms (dict_set a var value).
Proof.
  intros Hd Hnone Hv Hdv Hval. rewrite dict_set_fresh by done.
  intros v w [Hin|[= -> ->]%list_elem_of_singleton]%elem_of_app; [by apply Hd|eauto].
Qed.

Lemma backtrack_values_returns
    (recurse : assignment → result (retval * assignment)) var values (a : assignment) d :
  (∀ s1 s2, recurse s1 = Ok (RetNone, s2) → s2 = s1) →
  (∀ value, value ∈ values → ∃ r, recurse (dict_set a var value) = Ok r) →
  drawn_from cw doms a → dict_lookup a var = None →
  var ∈ variables cw → doms !! var = Some d → (∀ value, value ∈ values → value ∈ d) →
  (∃ r, backtrack_values cw recurse var values a = Ok r) ∨
  (∃ s, recurse s = Ok (RetAssignment, [])).
Proof.
  intros Hrestore Hrec Hd Hnone Hv Hdv.
  induction values as [|value rest IH]; intros Hvals; simpl; [eauto|].
  destruct (consistent_returns (dict_set a var value)) as [ok Hok].
  { eapply drawn_from_set; eauto. apply Hvals. left. }
  rewrite Hok. simpl.
  assert (Hrest : (∃ r, backtrack_values cw recurse var rest a = Ok r) ∨
                  (∃ s, recurse s = Ok (RetAssignment, []))).
  { apply IH; intros; [apply Hrec|apply Hvals]; by right. }
  destruct ok.
  - destruct (Hrec value) as [[r a2] Hr]; [left|]. rewrite Hr. simpl.
    destruct (truthy r a2) eqn:Ht; [eauto|].
    apply truthy_false in Ht as [->|[-> ->]]; [|eauto].
    apply Hrestore in Hr as ->. by rewrite dict_del_set_fresh.
  - by rewrite dict_del_set_fresh.
Qed.

Lemma backtrack_fuel_returns fuel (a : assignment) :
  length (unassigned_variables cw a) < fuel → drawn_from cw doms a →
  ∃ r, backtrack_fuel cw fuel doms a = Ok r.
Proof.
  revert a. induction fuel as [|fuel IH]; intros a Hlen Hd; [lia|]. simpl.
  destruct (assignment_complete cw a) eqn:Hc; [eauto|].
  assert (Hun : ∃ v, v ∈ variables cw ∧ dict_lookup a v = None).
  { destruct (unassigned_variables cw a) as [|v l] eqn:Hun.
    - exfalso. apply not_true_iff_false in Hc. apply Hc, assignment_complete_spec.
      intros v. split.
      + intros Hv. destruct (dict_lookup a v) eqn:E; [eauto|].
        exfalso. eapply not_elem_of_nil. rewrite <- Hun. by apply elem_of_unassigned.
      + intros [w Hw%dict_lookup_elem]. by apply Hd in Hw as [? _].
    - exists v. apply elem_of_unassigned. rewrite Hun. left. }
  destruct Hun as (v & Hv & Hnone).
  destruct (select_Ok cw doms a v Hv Hnone) as [var Hsel]; [by auto|].
  rewrite Hsel. simpl. apply select_inv in Hsel as (Hvar & Hvnone & d & Hdv & _).
  destruct (order_returns a var Hvar) as [values Hvalues]. rewrite Hvalues. simpl.
  pose proof (order_inv cw doms var a values Hvalues) as (d' & Hd' & Hperm).
  rewrite Hdv in Hd'. injection Hd' as <-.
  assert (Hvals : ∀ value, value ∈ values → value ∈ d).
  { intros value Hin. rewrite Hperm in Hin. by apply elem_of_elements. }
  destruct (backtrack_values_returns (backtrack_fuel cw fuel doms) var values a d)
    as [Hret|[s Hs]]; try done.
  - intros s1 s2. apply backtrack_fuel_restore.
  - intros value Hin. apply IH.
    + pose proof (unassigned_shrinks cw a var value Hvar Hvnone). lia.
    + eapply drawn_from_set; eauto.
  - (* the empty dict is complete only when there is no variable *)
    exfalso. destruct (backtrack_fuel_found cw fuel doms s [] Hs) as [Hcn _].
    pose proof (proj1 (assignment_complete_spec cw []) Hcn v) as Hiff.
    apply Hiff in Hv as [? ?]. done.
Qed.

End Returns.

(** On a well-formed instance [solve] returns an assignment or [None]:
    nothing is raised and nothing runs forever. *)
Lemma solve_returns (cw : Crossword) :
  well_formed cw → ∃ o doms', solve cw (init_domains cw) = Ok (o, doms').
Proof.
  intros Hwf. pose proof Hwf as (Hrange & Hclosed & Hov).
  unfold solve, solve_with.
  set (doms1 := enforce_node_consistency (init_domains cw)).
  assert (Hdom1 : ∀ u, u ∈ dom doms1 ↔ u ∈ variables cw).
  { intros u. rewrite elem_of_dom. unfold doms1.
    rewrite enforce_lookup, init_domains_lookup.
    case_decide; simpl; split; (done || by intros [? ?] || eauto). }
  assert (Hnode1 : node_consistent doms1) by apply enforce_node_consistent.
  destruct (ac3 cw (Some (all_arcs cw doms1)) doms1) as [[ok doms2]|e|] eqn:Hac3; simpl.
  - destruct ok; simpl; [|eauto].
    pose proof (ac3_shrinks _ _ _ _ _ Hac3) as Hs.
    destruct (backtrack_fuel_returns cw doms2 Hwf) with (fuel := S (size (variables cw))) (a := @nil (Var * string))
      as [[r a] Hr].
    + by eapply shrinks_node_consistent.
    + intros u Hu. apply elem_of_dom. rewrite (shrinks_dom _ _ Hs). by apply Hdom1.
    + pose proof (unassigned_le cw []). lia.
    + by intros v w ?%elem_of_nil.
    + unfold backtrack. rewrite Hr. simpl. eauto.
  - exfalso. unfold ac3 in Hac3.
    destruct (all_arcs cw doms1) as [|arc0 l] eqn:Harcs; [done|].
    eapply (ac3_loop_no_raise cw); [done|exact Hnode1| | |exact Hac3].
    + intros x y Hxy. rewrite <- Harcs in Hxy. apply elem_of_all_arcs in Hxy as [Hx Hy].
      split; [done|]. apply Hdom1. eapply Hclosed; [|done]. by apply Hdom1.
    + intros x z Hx Hz. apply Hdom1. eapply Hclosed; [|done]. by apply Hdom1.
  - by apply ac3_not_fuel in Hac3.
Qed.

(** The crossing slots form a well-formed instance, so [solve] answers. *)
Example ex_cw_well_formed : well_formed ex_cw.
Proof.
  split; [|split].
  - intros x y i j. simpl. unfold crossing.
    repeat case_decide; intros [= <- <-]; destruct_and?; subst; simpl; lia.
  - intros x y _. simpl. unfold crossing_neighbors.
    repeat case_decide; subst; set_solver.
  - intros x y Hx Hy. simpl in *. unfold crossing_neighbors, crossing.
    assert (x = ex_across ∨ x = ex_down) as Hx' by set_solver.
    assert (y = ex_across ∨ y = ex_down) as Hy' by set_solver.
    destruct Hx' as [-> | ->], Hy' as [-> | ->];
      repeat (case_decide; destruct_and?; try done);
      rewrite ?elem_of_singleton; split; (done || by intros [? ?] || eauto).
Qed.

Example ex_cw_answered :
  ∃ o doms', solve ex_cw (init_domains ex_cw) = Ok (o, doms').
Proof. apply solve_returns, ex_cw_well_formed. Qed.

(** * Further properties of the code *)

(** ** Node consistency *)

(** X1. [enforce_node_consistency] keeps the keys of [self.domains] and
    leaves each variable exactly the words of its former domain that have
    the variable's length: no fitting word is lost. *)
Theorem enforce_node_consistency_exact (doms : domains) :
  dom (enforce_node_consistency doms) = dom doms ∧
  ∀ v d, doms !! v = Some d →
         ∃ d', enforce_node_consistency doms !! v = Some d' ∧
               ∀ w, w ∈ d' ↔ w ∈ d ∧ String.length w = var_length v.
Proof.
  split; [apply shrinks_dom, enforce_shrinks|].
  intros v d Hv. rewrite enforce_lookup, Hv. simpl. eexists. split; [done|].
  intros w. unfold node_filter. rewrite elem_of_filter. tauto.
Qed.

(** X2. Running [enforce_node_consistency] a second time changes nothing. *)
Theorem enforce_node_consistency_idempotent (doms : domains) :
  enforce_node_consistency (enforce_node_consistency doms)
  = enforce_node_consistency doms.
Proof.
  apply map_eq. intros v. rewrite !enforce_lookup.
  destruct (doms !! v) as [d|]; simpl; [|done]. f_equal.
  apply set_eq. intros w. unfold node_filter. rewrite !elem_of_filter. tauto.
Qed.

(** ** revise *)

(** X3. [revise] returns normally exactly when the pair has no overlap
    entry, or both variables have a domain and the overlap indices are
    within every word of the two domains; otherwise it raises. *)
Theorem revise_returns_iff (cw : Crossword) (x y : Var) (doms : domains) :
  (∃ r, revise cw x y doms = Ok r) ↔
  overlaps cw x y = None ∨
  ∃ i j dx dy, overlaps cw x y = Some (i, j) ∧
               doms !! x = Some dx ∧ doms !! y = Some dy ∧
               (∀ w, w ∈ dx → i < String.length w) ∧
               (∀ w, w ∈ dy → j < String.length w).
Proof.
  split.
  - intros [[b doms'] H].
    apply revise_inv in H as [(Hov & _)|(i & j & dx & dy & Hov & Hx & Hy & Hdx & Hdy & _)];
      [by left|right].
    exists i, j, dx, dy. repeat split; try done.
    + intros w Hw. destruct (Hdx w Hw) as [c Hc]. by eapply get_Some_lt.
    + intros w Hw. destruct (Hdy w Hw) as [c Hc]. by eapply get_Some_lt.
  - intros [Hov|(i & j & dx & dy & Hov & Hx & Hy & Hdx & Hdy)].
    + exists (false, doms). unfold revise. by rewrite Hov.
    + eexists. apply (revise_Ok cw x y doms i j dx dy); try done;
        intros w Hw; apply get_is_Some; auto.
Qed.

(** X4. For two different variables, a second [revise(x, y)] right after
    the first finds nothing to remove: it returns [False] and leaves the
    domains as the first call left them. *)
Theorem revise_twice (cw : Crossword) (x y : Var) (doms doms' : domains) (b : bool) :
  x ≠ y → revise cw x y doms = Ok (b, doms') →
  revise cw x y doms' = Ok (false, doms').
Proof.
  intros Hxy H. apply arc_consistent_revise.
  apply revise_inv in H as [(Hov & _ & ->)|(i & j & dx & dy & Hov & Hx & Hy & Hdx & Hdy & -> & _)];
    unfold arc_consistent; rewrite Hov; [done|].
  exists (revised_domain i j dx dy), dy.
  rewrite lookup_insert_eq, lookup_insert_ne by done.
  split; [done|]. split; [done|]. split; [done|].
  intros w Hw. unfold revised_domain in Hw. by apply elem_of_filter in Hw as [? _].
Qed.

Lemma revise_twice_witness :
  revise ex_unsat ex_across2 ex_down
    (<[ex_across2 := ∅]> (enforce_node_consistency (init_domains ex_unsat)))
  = Ok (false, <[ex_across2 := ∅]> (enforce_node_consistency (init_domains ex_unsat))).
Proof.
  apply (revise_twice ex_unsat ex_across2 ex_down
           (enforce_node_consistency (init_domains ex_unsat)) _ true).
  - discriminate.
  - vm_compute. reflexivity.
Defined.

(** ** AC-3 *)

Lemma all_nonempty_false (doms : domains) :
  all_nonempty doms = false → ∃ v, doms !! v = Some ∅.
Proof.
  unfold all_nonempty. intros H.
  assert (∃ kv, kv ∈ map_to_list doms ∧ bool_decide (0 < size kv.2) = false)
    as ([v d] & Hin & Hsz).
  { induction (map_to_list doms) as [|kv l IH]; simpl in H; [done|].
    apply andb_false_iff in H as [H|H].
    - exists kv. split; [left|done].
    - destruct (IH H) as (kv' & Hin & Hkv'). exists kv'. split; [by right|done]. }
  apply elem_of_map_to_list in Hin. apply bool_decide_eq_false_1 in Hsz. simpl in Hsz.
  exists v. rewrite Hin. f_equal. apply leibniz_equiv, size_empty_iff. lia.
Qed.

Lemma ac3_failure_some_empty (cw : Crossword) (arcs : option (list arc))
    (doms doms' : domains) :
  ac3 cw arcs doms = Ok (false, doms') → ∃ v, doms' !! v = Some ∅.
Proof.
  assert (Hloop : ∀ fuel queue d, ac3_loop cw fuel queue d = Ok (false, doms') →
                                  ∃ v, doms' !! v = Some ∅).
  { induction fuel as [|fuel IH]; intros queue d H; simpl in H; [done|].
    destruct queue as [|[x y] queue].
    - inv_ok. by apply all_nonempty_false.
    - inv_ok. destruct a as [[] doms1]; [|by eapply IH].
      inv_ok. case_bool_decide as Hdx; [|by eapply IH].
      inv_ok. apply dict_get_Ok in E0. subst. eauto. }
  unfold ac3. destruct arcs as [[|arc0 l]|]; [done| |]; apply Hloop.
Qed.

(** X5. Whenever [ac3] returns [False], some variable is left with an empty
    domain. *)
Theorem ac3_failure_empty_domain (cw : Crossword) (arcs : option (list arc))
    (doms doms' : domains) :
  ac3 cw arcs doms = Ok (false, doms') → ∃ v, doms' !! v = Some ∅.
Proof. apply ac3_failure_some_empty. Qed.

Lemma ac3_failure_empty_domain_witness :
  ∃ v, (<[ex_across2 := ∅]> (enforce_node_consistency (init_domains ex_unsat)) : domains) !! v
       = Some ∅.
Proof.
  apply (ac3_failure_empty_domain ex_unsat None
           (enforce_node_consistency (init_domains ex_unsat))).
  vm_compute. reflexivity.
Defined.

(** X6. When [ac3] has processed every arc of the full arc set and returns
    [True], the domains are arc consistent: for neighbors [x] and [y] with
    overlap entry [(i, j)], every word left for [x] has at index [i] a
    letter that some word left for [y] has at index [j]. The neighbor sets
    and the overlap table are those of a crossword: symmetric. *)
Theorem ac3_arc_consistent (cw : Crossword) (arcs : option (list arc))
    (doms doms' : domains) :
  neighbors_symmetric cw → overlaps_symmetric cw →
  (∀ x y, x ∈ dom doms → y ∈ neighbors cw x →
          (x, y) ∈ default (all_arcs cw doms) arcs) →
  ac3 cw arcs doms = Ok (true, doms') →
  ∀ x y i j dx,
    y ∈ neighbors cw x → overlaps cw x y = Some (i, j) → doms' !! x = Some dx →
    ∃ dy, doms' !! y = Some dy ∧
          ∀ w, w ∈ dx → ∃ c w', String.get i w = Some c ∧ w' ∈ dy ∧
                                String.get j w' = Some c.
Proof.
  intros Hn Ho Hall H x y i j dx Hy Hov Hx.
  assert (Hcons : arc_consistent cw doms' x y).
  { unfold ac3 in H. destruct arcs as [[|arc0 l]|]; simpl in Hall.
    - inv_ok. exfalso. eapply not_elem_of_nil, (Hall x y); [|done].
      apply elem_of_dom; eauto.
    - eapply ac3_loop_establishes; eauto.
      + intros u v Hu Hv. left. by apply Hall.
      + rewrite (shrinks_dom _ _ (ac3_loop_shrinks _ _ _ _ _ _ H)).
        apply elem_of_dom. pose proof (ac3_loop_shrinks _ _ _ _ _ _ H x) as Hs.
        rewrite Hx in Hs. destruct (doms !! x); [eauto|done].
    - eapply ac3_loop_establishes; eauto.
      + intros u v Hu Hv. left. by apply Hall.
      + rewrite (shrinks_dom _ _ (ac3_loop_shrinks _ _ _ _ _ _ H)).
        apply elem_of_dom. pose proof (ac3_loop_shrinks _ _ _ _ _ _ H x) as Hs.
        rewrite Hx in Hs. destruct (doms !! x); [eauto|done]. }
  unfold arc_consistent in Hcons. rewrite Hov in Hcons.
  destruct Hcons as (dx' & dy & Hx' & Hy' & _ & Hsup).
  rewrite Hx in Hx'. injection Hx' as <-. exists dy. split; [done|].
  intros w Hw. specialize (Hsup w Hw). unfold supported in Hsup.
  destruct (String.get i w) as [c|]; [|done].
  destruct Hsup as (w' & Hw' & Hc). eauto.
Qed.

Lemma ac3_arc_consistent_witness :
  ∃ dy, enforce_node_consistency (init_domains ex_cw) !! ex_down = Some dy ∧
        ∀ w, w ∈ ({["CAT"; "DOG"; "ACE"; "ICE"]} : gset string) →
             ∃ c w', String.get 1 w = Some c ∧ w' ∈ dy ∧ String.get 1 w' = Some c.
Proof.
  apply (ac3_arc_consistent ex_cw None (enforce_node_consistency (init_domains ex_cw))
           (enforce_node_consistency (init_domains ex_cw))) with (x := ex_across).
  - apply crossing_neighbors_symmetric.
  - by apply crossing_overlaps_symmetric.
  - intros x y Hx Hy. simpl. by apply elem_of_all_arcs.
  - vm_compute. reflexivity.
  - change (ex_down ∈ ({[ex_down]} : gset Var)). by apply elem_of_singleton.
  - reflexivity.
  - vm_compute. reflexivity.
Defined.

(** More iterations than the loop needs do not change what it returns. *)
Lemma ac3_loop_fuel_mono (cw : Crossword) fuel fuel' queue (doms : domains) :
  ac3_loop cw fuel queue doms ≠ OutOfFuel → fuel ≤ fuel' →
  ac3_loop cw fuel' queue doms = ac3_loop cw fuel queue doms.
Proof.
  revert fuel' queue doms. induction fuel as [|fuel IH]; intros fuel' queue doms H Hle;
    [done|].
  destruct fuel' as [|fuel']; [lia|]. simpl in *.
  destruct queue as [|[x y] queue]; [done|].
  destruct (revise cw x y doms) as [[[] doms1]| |]; simpl in *; try done.
  - destruct (dict_get doms1 x) as [dx| |]; simpl in *; try done.
    case_bool_decide; [done|]. apply IH; [done|lia].
  - apply IH; [done|lia].
Qed.

(** X7. The [while] loop of [ac3] ends: it runs at most as many iterations
    as the queue is long plus, for each word in the domains, the number of
    arcs of the full arc set. Granting it more iterations than that bound
    does not change its result. *)
Theorem ac3_loop_terminates (cw : Crossword) (queue : list arc) (doms : domains)
    (fuel : nat) :
  length queue + length (all_arcs cw doms) * total_size doms < fuel →
  ac3_loop cw fuel queue doms ≠ OutOfFuel ∧
  ac3_loop cw fuel queue doms = ac3_loop cw (ac3_fuel cw queue doms) queue doms.
Proof.
  intros Hfuel.
  assert (Hbound : ac3_loop cw (ac3_fuel cw queue doms) queue doms ≠ OutOfFuel).
  { apply (ac3_loop_not_fuel cw (length (all_arcs cw doms)));
      [intros; by apply neighbors_le_all_arcs|unfold ac3_fuel; lia]. }
  assert (Heq : ac3_loop cw fuel queue doms = ac3_loop cw (ac3_fuel cw queue doms) queue doms).
  { apply ac3_loop_fuel_mono; [done|unfold ac3_fuel; lia]. }
  split; [by rewrite Heq|done].
Qed.

Lemma ac3_loop_terminates_witness :
  ac3_loop ex_unsat 100 (all_arcs ex_unsat (init_domains ex_unsat)) (init_domains ex_unsat)
    ≠ OutOfFuel ∧
  ac3_loop ex_unsat 100 (all_arcs ex_unsat (init_domains ex_unsat)) (init_domains ex_unsat)
  = ac3_loop ex_unsat
      (ac3_fuel ex_unsat (all_arcs ex_unsat (init_domains ex_unsat)) (init_domains ex_unsat))
      (all_arcs ex_unsat (init_domains ex_unsat)) (init_domains ex_unsat).
Proof.
  apply (ac3_loop_terminates ex_unsat).
  apply (bool_decide_unpack _). vm_compute. exact I.
Defined.

(** A revision along a neighbor arc removes no word that a solution uses. *)
Lemma revise_keeps_solution (cw : Crossword) x y (doms doms' : domains) r (b : assignment) :
  (∀ v, v ∈ dom doms → v ∈ variables cw) →
  y ∈ neighbors cw x →
  revise cw x y doms = Ok (r, doms') →
  solution cw doms b → solution cw doms' b.
Proof.
  intros Hdom Hy Hrev (Hwf & Hkeys & Hsat & Hdrawn).
  split; [done|]. split; [done|]. split; [done|].
  apply revise_inv in Hrev as [(_ & _ & ->)|(i & j & dx & dy & Hov & Hx & Hdy & _ & _ & -> & _)];
    [done|].
  intros v w Hv. destruct (Hdrawn v w Hv) as (d & Hd & Hw).
  destruct (decide (v = x)) as [->|Hne]; [|rewrite lookup_insert_ne by done; eauto].
  rewrite lookup_insert_eq. eexists. split; [done|].
  rewrite Hx in Hd. injection Hd as <-.
  unfold revised_domain. apply elem_of_filter. split; [|done].
  assert (is_Some (dict_lookup b y)) as [w' Hw'].
  { apply Hkeys, Hdom. apply elem_of_dom. eauto. }
  destruct (Hdrawn y w' Hw') as (dy' & Hdy' & Hwy). rewrite Hdy in Hdy'. injection Hdy' as <-.
  destruct Hsat as (_ & _ & Hagree).
  destruct (Hagree x w y w' Hv Hy Hw') as (i' & j' & c & Hov' & Hc & Hc').
  rewrite Hov in Hov'. injection Hov' as <- <-.
  unfold supported. rewrite Hc. exists w'. eauto.
Qed.

Lemma ac3_loop_keeps_solution (cw : Crossword) fuel queue (doms doms' : domains) ok
    (b : assignment) :
  neighbors_symmetric cw →
  (∀ v, v ∈ dom doms → v ∈ variables cw) →
  (∀ x y, (x, y) ∈ queue → y ∈ neighbors cw x) →
  ac3_loop cw fuel queue doms = Ok (ok, doms') →
  solution cw doms b → solution cw doms' b.
Proof.
  intros Hsym. revert queue doms.
  induction fuel as [|fuel IH]; intros queue doms Hdom Hq H Hsol; simpl in H; [done|].
  destruct queue as [|[x y] queue]; [by inv_ok|].
  inv_ok. destruct a as [revised doms1].
  assert (Hsol1 : solution cw doms1 b).
  { eapply revise_keeps_solution; eauto. apply Hq. left. }
  assert (Hdom1 : ∀ v, v ∈ dom doms1 → v ∈ variables cw).
  { intros v. rewrite (shrinks_dom _ _ (revise_shrinks _ _ _ _ _ _ E)). apply Hdom. }
  destruct revised.
  - inv_ok. case_bool_decide; inv_ok; [done|].
    eapply IH; [done| |done|done].
    intros u v [Huv|Huv]%elem_of_app; [apply Hq; by right|].
    apply list_elem_of_fmap in Huv as (z & [= -> ->] & Hz%elem_of_elements).
    apply elem_of_difference in Hz as [Hz _]. by apply Hsym.
  - eapply IH; [done| |done|done]. intros u v Huv. apply Hq. by right.
Qed.

Lemma solution_domain_nonempty (cw : Crossword) (doms : domains) (b : assignment) v :
  (∀ u, u ∈ dom doms → u ∈ variables cw) →
  solution cw doms b → doms !! v ≠ Some ∅.
Proof.
  intros Hdom (_ & Hkeys & _ & Hdrawn) Hv.
  assert (is_Some (dict_lookup b v)) as [w Hw].
  { apply Hkeys, Hdom. apply elem_of_dom. eauto. }
  destruct (Hdrawn v w Hw) as (d & Hd & Hin). rewrite Hv in Hd. injection Hd as <-.
  by apply elem_of_empty in Hin.
Qed.

Lemma ac3_keeps_solution (cw : Crossword) arcs (doms doms' : domains) ok (b : assignment) :
  neighbors_symmetric cw →
  (∀ v, v ∈ dom doms → v ∈ variables cw) →
  (∀ x y, (x, y) ∈ default (all_arcs cw doms) arcs → y ∈ neighbors cw x) →
  ac3 cw arcs doms = Ok (ok, doms') →
  solution cw doms b → solution cw doms' b ∧ ok = true.
Proof.
  intros Hsym Hdom Hq H Hsol.
  assert (Hsol' : solution cw doms' b).
  { unfold ac3 in H. destruct arcs as [[|arc0 l]|]; simpl in Hq;
      [by inv_ok|by eapply ac3_loop_keeps_solution..]. }
  split; [done|]. destruct ok; [done|]. exfalso.
  destruct (ac3_failure_some_empty cw arcs doms doms' H) as [v Hv].
  eapply solution_domain_nonempty; [|exact Hsol'|exact Hv].
  intros u. rewrite (shrinks_dom _ _ (ac3_shrinks _ _ _ _ _ H)). apply Hdom.
Qed.

(** X8. AC-3 is sound for the instance: run on arcs between neighbors, it
    removes no word that a solution within the domains uses, and when such
    a solution exists it returns [True]. Being neighbors is mutual, and the
    domains belong to variables of the instance. *)
Theorem ac3_keeps_solutions (cw : Crossword) (arcs : option (list arc))
    (doms doms' : domains) (ok : bool) (b : assignment) :
  neighbors_symmetric cw →
  (∀ v, v ∈ dom doms → v ∈ variables cw) →
  (∀ x y, (x, y) ∈ default (all_arcs cw doms) arcs → y ∈ neighbors cw x) →
  ac3 cw arcs doms = Ok (ok, doms') →
  solution cw doms b → solution cw doms' b ∧ ok = true.
Proof. apply ac3_keeps_solution. Qed.

Lemma dom_enforce_init (cw : Crossword) :
  dom (enforce_node_consistency (init_domains cw)) = variables cw.
Proof.
  apply set_eq. intros v. rewrite elem_of_dom, enforce_lookup, init_domains_lookup.
  case_decide; simpl; split; (done || by intros [? ?] || eauto).
Qed.

Lemma ex_solution_is_solution :
  solution ex_cw (enforce_node_consistency (init_domains ex_cw)) ex_solution.
Proof.
  split; [|split; [|split]].
  - unfold dict_wf. apply (bool_decide_unpack _). vm_compute. exact I.
  - apply assignment_complete_spec. vm_compute. reflexivity.
  - apply consistent_sound. vm_compute. reflexivity.
  - intros v w Hv%dict_lookup_elem.
    apply elem_of_cons in Hv as [[= -> ->]|Hv%list_elem_of_singleton].
    + exists {["CAT"; "DOG"; "ACE"; "ICE"]}. split; [vm_compute; reflexivity|].
      apply (bool_decide_unpack _). vm_compute. exact I.
    + injection Hv as -> ->.
      exists {["CAT"; "DOG"; "ACE"; "ICE"]}. split; [vm_compute; reflexivity|].
      apply (bool_decide_unpack _). vm_compute. exact I.
Qed.

Lemma ac3_keeps_solutions_witness :
  solution ex_cw (enforce_node_consistency (init_domains ex_cw)) ex_solution ∧ true = true.
Proof.
  apply (ac3_keeps_solutions ex_cw None (enforce_node_consistency (init_domains ex_cw))).
  - apply crossing_neighbors_symmetric.
  - intros v. by rewrite dom_enforce_init.
  - intros x y. simpl. by intros [_ ?]%elem_of_all_arcs.
  - vm_compute. reflexivity.
  - apply ex_solution_is_solution.
Defined.

(** ** The heuristics *)

Lemma key_lt_spec (k1 k2 : nat * Z) :
  key_lt k1 k2 = true ↔ k1.1 < k2.1 ∨ (k1.1 = k2.1 ∧ (k1.2 < k2.2)%Z).
Proof.
  unfold key_lt. rewrite orb_true_iff, andb_true_iff, !bool_decide_eq_true. tauto.
Qed.

(** [min] returns an element whose key no other key is below. *)
Lemma min_keyed_least {A : Type} (best : (nat * Z) * A) l :
  ∃ k, (k, min_keyed best l) ∈ best :: l ∧ ∀ x, x ∈ best :: l → key_lt x.1 k = false.
Proof.
  revert best. induction l as [|x l IH]; intros best; simpl.
  - exists best.1. split; [destruct best; left|].
    intros y ->%list_elem_of_singleton. apply not_true_iff_false.
    rewrite key_lt_spec. lia.
  - destruct (key_lt x.1 best.1) eqn:Hlt.
    + destruct (IH x) as (k & Hin & Hmin). exists k. split; [by right|].
      intros y [->|Hy]%elem_of_cons; [|by apply Hmin].
      pose proof (Hmin x ltac:(left)) as Hx.
      apply not_true_iff_false in Hx. apply not_true_iff_false.
      rewrite key_lt_spec in *. lia.
    + destruct (IH best) as (k & Hin & Hmin). exists k. split.
      * apply elem_of_cons in Hin as [->|Hin]; [left|right; by right].
      * intros y [->|[->|Hy]%elem_of_cons]%elem_of_cons.
        -- apply Hmin. left.
        -- pose proof (Hmin best ltac:(left)) as Hb.
           apply not_true_iff_false in Hb, Hlt. apply not_true_iff_false.
           rewrite key_lt_spec in *. lia.
        -- apply Hmin. by right.
Qed.

(** X9. [select_unassigned_variable] returns an unassigned variable of the
    instance with the fewest words left in its domain and, among those, the
    most neighbors. *)
Theorem select_mrv_degree (cw : Crossword) (doms : domains) (a : assignment) (var : Var) :
  select_unassigned_variable cw doms a = Ok var →
  var ∈ variables cw ∧ dict_lookup a var = None ∧
  ∃ d, doms !! var = Some d ∧
       ∀ v, v ∈ variables cw → dict_lookup a v = None →
            ∃ d', doms !! v = Some d' ∧
                  (size d < size d' ∨
                   (size d = size d' ∧ size (neighbors cw v) ≤ size (neighbors cw var))).
Proof.
  unfold select_unassigned_variable.
  destruct (unassigned_variables cw a) as [|u us] eqn:Hun; [done|].
  rewrite <- Hun. intros H. inv_ok. rename a0 into keyed.
  destruct keyed as [|first rest]; [done|]. inv_ok.
  apply mapR_keyed_inv in E as [Hvars Hkeys].
  destruct (min_keyed_least first rest) as (k & Hin & Hmin).
  assert (Hvar : min_keyed first rest ∈ unassigned_variables cw a).
  { rewrite <- Hvars. apply list_elem_of_fmap. by exists (k, min_keyed first rest). }
  apply elem_of_unassigned in Hvar as [Hv Hnone]. split; [done|]. split; [done|].
  pose proof (Hkeys _ Hin) as Hk. simpl in Hk. unfold mrv_key in Hk. inv_ok.
  apply dict_get_Ok in E. exists a0. split; [done|].
  intros v Hv' Hnone'.
  assert (v ∈ (first :: rest).*2) as Hvin by (rewrite Hvars; by apply elem_of_unassigned).
  apply list_elem_of_fmap in Hvin as ([kv v'] & -> & Hvin).
  pose proof (Hkeys _ Hvin) as Hkv. simpl in Hkv. unfold mrv_key in Hkv. inv_ok.
  apply dict_get_Ok in E0. exists a1. split; [done|].
  pose proof (Hmin _ Hvin) as Hle. apply not_true_iff_false in Hle.
  rewrite key_lt_spec in Hle. simpl in Hle |- *. lia.
Qed.

Lemma select_mrv_degree_witness :
  ex_down ∈ variables ex_cw ∧ dict_lookup [] ex_down = None ∧
  ∃ d, enforce_node_consistency (init_domains ex_cw) !! ex_down = Some d ∧
       ∀ v, v ∈ variables ex_cw → dict_lookup [] v = None →
            ∃ d', enforce_node_consistency (init_domains ex_cw) !! v = Some d' ∧
                  (size d < size d' ∨
                   (size d = size d' ∧
                    size (neighbors ex_cw v) ≤ size (neighbors ex_cw ex_down))).
Proof.
  apply (select_mrv_degree ex_cw (enforce_node_consistency (init_domains ex_cw)) []).
  vm_compute. reflexivity.
Defined.

(** ** Backtracking search *)

(** X10. [backtrack] cannot cope with a dict that assigns every variable
    of the instance and holds a further key: the dict does not count as
    complete, no variable is left to select, and [min] of the empty list
    raises [ValueError]. *)
Theorem backtrack_foreign_key (cw : Crossword) (doms : domains) (a : assignment) (k : Var) :
  (∀ v, v ∈ variables cw → is_Some (dict_lookup a v)) →
  k ∉ variables cw → is_Some (dict_lookup a k) →
  backtrack cw doms a = Raise ValueError.
Proof.
  intros Hall Hk Hka. unfold backtrack. simpl.
  assert (assignment_complete cw a = false) as ->.
  { apply not_true_iff_false. intros Hc.
    apply Hk, (proj1 (assignment_complete_spec cw a) Hc), Hka. }
  unfold select_unassigned_variable.
  destruct (unassigned_variables cw a) as [|u us] eqn:Hun; [done|].
  exfalso. assert (u ∈ unassigned_variables cw a) as Hu by (rewrite Hun; left).
  apply elem_of_unassigned in Hu as [Hu Hnone].
  destruct (Hall u Hu) as [w Hw]. congruence.
Qed.

Lemma backtrack_foreign_key_witness :
  backtrack ex_single ∅ [(ex_across, "CAT"%string); (ex_down, "DOG"%string)]
  = Raise ValueError.
Proof.
  apply (backtrack_foreign_key ex_single ∅ _ ex_down).
  - intros v Hv. change (v ∈ ({[ex_across]} : gset Var)) in Hv.
    apply elem_of_singleton in Hv as ->. by eexists.
  - intros Hv. change (ex_down ∈ ({[ex_across]} : gset Var)) in Hv.
    by apply elem_of_singleton in Hv.
  - by eexists.
Defined.


Lemma dict_wf_snoc (a : assignment) var value :
  dict_wf a → dict_lookup a var = None → dict_wf (a ++ [(var, value)]).
Proof.
  unfold dict_wf. intros Hwf Hnone%dict_lookup_None. rewrite fmap_app. simpl.
  apply NoDup_app. split; [done|]. split; [|apply NoDup_singleton].
  intros v Hv ->%list_elem_of_singleton. done.
Qed.

Lemma extension_ok_refl (cw : Crossword) (doms : domains) (a : assignment) :
  extension_ok cw doms a a.
Proof.
  exists []. rewrite app_nil_r. split; [done|]. split; [|done].
  by intros v w ?%elem_of_nil.
Qed.

Lemma extension_ok_step (cw : Crossword) (doms : domains) (a a' : assignment) var value d :
  var ∈ variables cw → dict_lookup a var = None → doms !! var = Some d → value ∈ d →
  extension_ok cw doms (dict_set a var value) a' → extension_ok cw doms a a'.
Proof.
  intros Hv Hnone Hd Hval (ext & -> & Hext & Hwf). rewrite dict_set_fresh in * by done.
  exists ((var, value) :: ext). rewrite <- app_assoc. split; [done|]. split.
  - intros v w [[= -> ->]|Hin]%elem_of_cons; eauto.
  - intros Ha. rewrite <- app_assoc in Hwf. apply Hwf. by apply dict_wf_snoc.
Qed.

Lemma backtrack_values_extends (cw : Crossword) (doms : domains)
    (recurse : assignment → result (retval * assignment)) var values (a a' : assignment) d :
  (∀ s s', recurse s = Ok (RetAssignment, s') → extension_ok cw doms s s') →
  (∀ s s', recurse s = Ok (RetNone, s') → s' = s) →
  var ∈ variables cw → dict_lookup a var = None → doms !! var = Some d →
  (∀ value, value ∈ values → value ∈ d) →
  backtrack_values cw recurse var values a = Ok (RetAssignment, a') →
  extension_ok cw doms a a'.
Proof.
  intros Hrec Hrestore Hv Hnone Hd.
  induction values as [|value rest IH]; simpl; intros Hvals H; [by inv_ok|].
  assert (Hrest : ∀ value', value' ∈ rest → value' ∈ d).
  { intros; apply Hvals. by right. }
  inv_ok. destruct a0.
  - inv_ok. destruct a0 as [r a2]. destruct (truthy r a2) eqn:Ht.
    + apply truthy_true in Ht as ->. inv_ok.
      eapply extension_ok_step; eauto. apply Hvals. left.
    + inv_ok. apply truthy_false in Ht as [->|[-> ->]]; [|by rewrite dict_del_nil in E1].
      apply Hrestore in E0 as ->. rewrite dict_del_set_fresh in E1 by done.
      inv_ok. by apply IH.
  - inv_ok. rewrite dict_del_set_fresh in E0 by done. inv_ok. by apply IH.
Qed.

Lemma backtrack_fuel_extends (cw : Crossword) fuel (doms : domains) (a a' : assignment) :
  backtrack_fuel cw fuel doms a = Ok (RetAssignment, a') → extension_ok cw doms a a'.
Proof.
  revert a a'. induction fuel as [|fuel IH]; intros a a' H; simpl in H; [done|].
  destruct (assignment_complete cw a); [inv_ok; apply extension_ok_refl|]. inv_ok.
  pose proof (order_inv _ _ _ _ _ E0) as (d & Hd & Hperm).
  apply select_inv in E as (Hv & Hnone & _).
  eapply backtrack_values_extends; eauto.
  - intros s s'. apply backtrack_fuel_restore.
  - intros value Hin. rewrite Hperm in Hin. by apply elem_of_elements.
Qed.

(** X11. The assignment a successful [backtrack] returns is the dict it was
    given with entries appended: each new entry assigns a variable of the
    instance a word of its current domain, and no key occurs twice. *)
Theorem backtrack_success_extends (cw : Crossword) (doms : domains) (a a' : assignment) :
  backtrack cw doms a = Ok (RetAssignment, a') →
  ∃ ext, a' = a ++ ext ∧
         (∀ v w, (v, w) ∈ ext → v ∈ variables cw ∧ ∃ d, doms !! v = Some d ∧ w ∈ d) ∧
         (dict_wf a → dict_wf a').
Proof. unfold backtrack. apply backtrack_fuel_extends. Qed.

Lemma backtrack_success_extends_witness :
  ∃ ext, ex_solution = [(ex_down, "ICE"%string)] ++ ext ∧
         (∀ v w, (v, w) ∈ ext →
                 v ∈ variables ex_cw ∧
                 ∃ d, enforce_node_consistency (init_domains ex_cw) !! v = Some d ∧ w ∈ d) ∧
         (dict_wf [(ex_down, "ICE"%string)] → dict_wf ex_solution).
Proof.
  apply (backtrack_success_extends ex_cw (enforce_node_consistency (init_domains ex_cw))).
  vm_compute. reflexivity.
Defined.

(** A dict that agrees with a solution meets the constraints itself. *)
Lemma satisfies_sub (cw : Crossword) (a b : assignment) :
  extends b a → satisfies cw b → satisfies cw a.
Proof.
  intros Hext (Hd & Hl & Ho). split; [|split].
  - intros v1 v2 w H1 H2. eapply Hd; eauto.
  - intros v w Hv. eauto.
  - intros v w n nw Hv Hn Hnw. eauto.
Qed.

Lemma extends_snoc (a b : assignment) var value :
  extends b a → dict_lookup a var = None → dict_lookup b var = Some value →
  extends b (a ++ [(var, value)]).
Proof.
  intros Hext Hnone Hb v w Hv.
  destruct (dict_lookup a v) as [w'|] eqn:Ha.
  - assert (dict_lookup (a ++ [(var, value)]) v = Some w') as Hv'.
    { clear -Ha. induction a as [|[u x] a IH]; simpl in *; [done|].
      destruct (decide (u = v)); [done|auto]. }
    rewrite Hv in Hv'. injection Hv' as ->. by apply Hext.
  - apply dict_lookup_elem in Hv. apply elem_of_app in Hv as [Hv|Hv].
    + exfalso. apply dict_lookup_None in Ha. apply Ha.
      apply list_elem_of_fmap. by exists (v, w).
    + apply list_elem_of_singleton in Hv. injection Hv as -> ->. done.
Qed.

Lemma completion_snoc (cw : Crossword) (doms : domains) (a b : assignment) var value :
  completion cw doms a b → dict_lookup a var = None → dict_lookup b var = Some value →
  completion cw doms (a ++ [(var, value)]) b.
Proof.
  intros (Hwf & Hkeys & Hsat & Hext & Hdrawn) Hnone Hb.
  split; [done|]. split; [done|]. split; [done|]. split; [by apply extends_snoc|].
  intros v w Hv. apply Hdrawn. apply dict_lookup_app_None in Hv as [? _]. done.
Qed.

Lemma backtrack_values_exhaustive (cw : Crossword) (doms : domains)
    (recurse : assignment → result (retval * assignment)) var values (a a' b : assignment) :
  (∀ s s', dict_wf s → recurse s = Ok (RetNone, s') → ¬ completion cw doms s b) →
  (∀ s s', recurse s = Ok (RetNone, s') → s' = s) →
  dict_wf a → dict_lookup a var = None →
  backtrack_values cw recurse var values a = Ok (RetNone, a') →
  completion cw doms a b →
  ∀ value, dict_lookup b var = Some value → value ∉ values.
Proof.
  intros Hrec Hrestore Hwf Hnone H Hcomp value Hb.
  induction values as [|value' rest IH]; simpl in H; [apply not_elem_of_nil|].
  assert (Hrest : backtrack_values cw recurse var rest a = Ok (RetNone, a') ∧
                  (value' = value → False)).
  { inv_ok. rewrite dict_set_fresh in * by done. destruct a0.
    - inv_ok. destruct a0 as [r a2]. destruct (truthy r a2) eqn:Ht.
      + apply truthy_true in Ht. inv_ok. congruence.
      + inv_ok. apply truthy_false in Ht as [->|[-> ->]]; [|by rewrite dict_del_nil in E1].
        pose proof (Hrestore _ _ E0) as ->.
        rewrite <- (dict_set_fresh a var value') in E1 by done.
        rewrite dict_del_set_fresh in E1 by done. inv_ok. split; [done|].
        intros ->. eapply Hrec; [|exact E0|].
        * by apply dict_wf_snoc.
        * by apply completion_snoc.
    - inv_ok. rewrite <- (dict_set_fresh a var value') in E0 by done.
      rewrite dict_del_set_fresh in E0 by done. inv_ok. split; [done|].
      intros ->.
      lazymatch goal with
      | Hf : consistent cw ?s = Ok false |- _ =>
          assert (consistent cw s = Ok true) as Hc; [|congruence]
      end.
      apply consistent_complete; [by apply dict_wf_snoc|].
      destruct Hcomp as (_ & _ & Hsat & Hext & _).
      eapply satisfies_sub; [|exact Hsat]. by apply extends_snoc. }
  destruct Hrest as [Hrest Hne]. intros [->|Hin]%elem_of_cons; [done|].
  by apply IH.
Qed.

Lemma backtrack_fuel_exhaustive (cw : Crossword) fuel (doms : domains) (a a' b : assignment) :
  dict_wf a → backtrack_fuel cw fuel doms a = Ok (RetNone, a') → ¬ completion cw doms a b.
Proof.
  revert a a'. induction fuel as [|fuel IH]; intros a a' Hwf H Hcomp; simpl in H; [done|].
  destruct (assignment_complete cw a); [done|]. inv_ok.
  pose proof (order_inv _ _ _ _ _ E0) as (d & Hd & Hperm).
  apply select_inv in E as (Hv & Hnone & _).
  pose proof Hcomp as (_ & Hkeys & _ & _ & Hdrawn).
  destruct (proj1 (Hkeys a0) Hv) as [value Hvalue].
  destruct (Hdrawn a0 value Hnone Hvalue) as (d' & Hd' & Hin).
  rewrite Hd in Hd'. injection Hd' as <-.
  apply (backtrack_values_exhaustive cw doms (backtrack_fuel cw fuel doms) a0 a1 a a' b)
    with (value := value); try done.
  - intros s s'. apply backtrack_fuel_restore.
  - rewrite Hperm. by apply elem_of_elements.
Qed.

(** X12. The search is exhaustive: when [backtrack] returns [None] on a
    dict, no complete assignment both keeps the dict's entries, meets the
    three constraints and takes the remaining words from the current
    domains. *)
Theorem backtrack_none_no_completion (cw : Crossword) (doms : domains)
    (a a' b : assignment) :
  dict_wf a → backtrack cw doms a = Ok (RetNone, a') → ¬ completion cw doms a b.
Proof. unfold backtrack. apply backtrack_fuel_exhaustive. Qed.

Lemma backtrack_none_no_completion_witness :
  ¬ completion ex_one_word (enforce_node_consistency (init_domains ex_one_word))
      [(ex_down, "CAT"%string)] [(ex_down, "CAT"%string); (ex_across, "CAT"%string)].
Proof.
  apply (backtrack_none_no_completion ex_one_word _ _ [(ex_down, "CAT"%string)]).
  - unfold dict_wf. apply (bool_decide_unpack _). vm_compute. exact I.
  - vm_compute. reflexivity.
Defined.

Lemma backtrack_values_congr (cw : Crossword)
    (rec1 rec2 : assignment → result (retval * assignment)) var values (a : assignment) :
  (∀ s, rec1 s ≠ OutOfFuel → rec2 s = rec1 s) →
  backtrack_values cw rec1 var values a ≠ OutOfFuel →
  backtrack_values cw rec2 var values a = backtrack_values cw rec1 var values a.
Proof.
  intros Hrec. revert a. induction values as [|value rest IH]; intros a H; simpl in *; [done|].
  destruct (consistent cw (dict_set a var value)) as [[]| |]; simpl in *; try done.
  - destruct (rec1 (dict_set a var value)) as [[r a2]| |] eqn:Hr; simpl in *; try done.
    + rewrite Hrec by (by rewrite Hr). rewrite Hr. simpl.
      destruct (truthy r a2); [done|].
      destruct (dict_del a2 var) as [a3| |]; simpl in *; try done. by apply IH.
    + rewrite Hrec by (by rewrite Hr). by rewrite Hr.
  - destruct (dict_del (dict_set a var value) var) as [a3| |]; simpl in *; try done.
    by apply IH.
Qed.

(** A deeper recursion allowance does not change what the search returns. *)
Lemma backtrack_fuel_mono (cw : Crossword) fuel fuel' (doms : domains) (a : assignment) :
  backtrack_fuel cw fuel doms a ≠ OutOfFuel → fuel ≤ fuel' →
  backtrack_fuel cw fuel' doms a = backtrack_fuel cw fuel doms a.
Proof.
  revert fuel' a. induction fuel as [|fuel IH]; intros fuel' a H Hle; [done|].
  destruct fuel' as [|fuel']; [lia|]. simpl in *.
  destruct (assignment_complete cw a); [done|].
  destruct (select_unassigned_variable cw doms a) as [var| |]; simpl in *; try done.
  destruct (order_domain_values cw doms var a) as [values| |]; simpl in *; try done.
  apply backtrack_values_congr; [|done]. intros s Hs. apply IH; [done|lia].
Qed.

(** X13. The recursion of [backtrack] is never deeper than the number of
    unassigned variables plus one: every nested call has assigned one more
    variable of the instance. Allowing a deeper recursion does not change
    the result. *)
Theorem backtrack_depth_bound (cw : Crossword) (doms : domains) (a : assignment)
    (fuel : nat) :
  length (unassigned_variables cw a) < fuel →
  backtrack_fuel cw fuel doms a ≠ OutOfFuel ∧
  backtrack_fuel cw fuel doms a
  = backtrack_fuel cw (S (length (unassigned_variables cw a))) doms a.
Proof.
  intros Hfuel.
  assert (Hmin : backtrack_fuel cw (S (length (unassigned_variables cw a))) doms a
                 ≠ OutOfFuel) by (apply backtrack_fuel_not_fuel; lia).
  assert (Heq : backtrack_fuel cw fuel doms a
                = backtrack_fuel cw (S (length (unassigned_variables cw a))) doms a)
    by (apply backtrack_fuel_mono; [done|lia]).
  split; [by rewrite Heq|done].
Qed.

Lemma backtrack_depth_bound_witness :
  backtrack_fuel ex_cw 10 (enforce_node_consistency (init_domains ex_cw)) [] ≠ OutOfFuel ∧
  backtrack_fuel ex_cw 10 (enforce_node_consistency (init_domains ex_cw)) []
  = backtrack_fuel ex_cw (S (length (unassigned_variables ex_cw [])))
      (enforce_node_consistency (init_domains ex_cw)) [].
Proof.
  apply (backtrack_depth_bound ex_cw).
  apply (bool_decide_unpack _). vm_compute. exact I.
Defined.

(** ** solve *)

Lemma solution_enforce (cw : Crossword) (doms : domains) (b : assignment) :
  solution cw doms b → solution cw (enforce_node_consistency doms) b.
Proof.
  intros (Hwf & Hkeys & Hsat & Hdrawn). split; [done|]. split; [done|]. split; [done|].
  intros v w Hv. destruct (Hdrawn v w Hv) as (d & Hd & Hw).
  rewrite enforce_lookup, Hd. simpl. eexists. split; [done|].
  unfold node_filter. apply elem_of_filter. split; [|done].
  destruct Hsat as (_ & Hlen & _). by apply Hlen.
Qed.

Lemma solution_completion (cw : Crossword) (doms : domains) (b : assignment) :
  solution cw doms b → completion cw doms [] b.
Proof.
  intros (Hwf & Hkeys & Hsat & Hdrawn). split; [done|]. split; [done|]. split; [done|].
  split; [by intros v w ?|]. intros v w _. apply Hdrawn.
Qed.

Lemma solve_none_no_solution (cw : Crossword) (doms doms' : domains) (b : assignment) :
  neighbors_symmetric cw →
  (∀ v, v ∈ dom doms → v ∈ variables cw) →
  solve cw doms = Ok (None, doms') → ¬ solution cw doms b.
Proof.
  intros Hsym Hdom H Hsol. unfold solve, solve_with in H. inv_ok.
  destruct a as [ok doms2].
  apply solution_enforce in Hsol.
  eapply ac3_keeps_solution in E as [Hsol2 ->]; [|done| | |exact Hsol].
  - simpl in H. apply bind_Ok in H as ([r a] & Hbt & H). destruct r; [|by inv_ok].
    eapply backtrack_fuel_exhaustive; [|exact Hbt|by apply solution_completion].
    apply NoDup_nil_2.
  - intros v. rewrite (shrinks_dom _ _ (enforce_shrinks doms)). apply Hdom.
  - intros x y. simpl. by intros [_ ?]%elem_of_all_arcs.
Qed.

(** X14. The answer [None] of [solve] is final: when [solve] returns [None]
    no assignment of pool words to the variables of the instance meets the
    three constraints. Being neighbors is mutual, as in a crossword. *)
Theorem solve_none_unsatisfiable (cw : Crossword) (doms' : domains) (b : assignment) :
  neighbors_symmetric cw →
  solve cw (init_domains cw) = Ok (None, doms') →
  ¬ solution cw (init_domains cw) b.
Proof.
  intros Hsym. apply solve_none_no_solution; [done|].
  intros v [d Hd]%elem_of_dom. rewrite init_domains_lookup in Hd. by case_decide.
Qed.

Lemma solve_none_unsatisfiable_witness :
  ¬ solution ex_one_word (init_domains ex_one_word)
      [(ex_down, "CAT"%string); (ex_across, "CAT"%string)].
Proof.
  apply (solve_none_unsatisfiable ex_one_word
           (enforce_node_consistency (init_domains ex_one_word))).
  - apply crossing_neighbors_symmetric.
  - vm_compute. reflexivity.
Defined.

Lemma solve_some_solution (cw : Crossword) (doms doms' : domains) (a : assignment) :
  solve cw doms = Ok (Some a, doms') →
  solution cw doms' a ∧ shrinks doms' doms.
Proof.
  unfold solve, solve_with. intros H. inv_ok. destruct a0 as [ok doms2].
  destruct ok; simpl in H; [|by inv_ok].
  inv_ok. destruct a0 as [r a']. destruct r; inv_ok.
  pose proof (backtrack_fuel_found _ _ _ _ _ E0) as [Hc Hcons].
  pose proof (backtrack_fuel_extends _ _ _ _ _ E0) as (ext & Hext & Hdrawn & Hwf).
  simpl in Hext. subst ext. specialize (Hwf (NoDup_nil_2 : dict_wf [])).
  split.
  - split; [done|]. split; [by apply assignment_complete_spec|]. split.
    + apply consistent_sound. destruct Hcons as [->|]; [apply consistent_nil|done].
    + intros v w Hv%dict_lookup_elem. by apply Hdrawn in Hv as [_ ?].
  - eapply shrinks_trans; [by eapply ac3_shrinks|apply enforce_shrinks].
Qed.

(** X15. An assignment returned by [solve] assigns each variable of the
    instance once, and only those; every word in it is still in the domain
    of its variable when [solve] returns, hence was in that domain at the
    start. *)
Theorem solve_assignment_from_domains (cw : Crossword) (doms doms' : domains)
    (a : assignment) :
  solve cw doms = Ok (Some a, doms') →
  dict_wf a ∧
  (∀ v, v ∈ variables cw ↔ is_Some (dict_lookup a v)) ∧
  ∀ v w, dict_lookup a v = Some w →
         ∃ d d', doms !! v = Some d ∧ doms' !! v = Some d' ∧ w ∈ d' ∧ w ∈ d.
Proof.
  intros [(Hwf & Hkeys & _ & Hdrawn) Hs]%solve_some_solution.
  split; [done|]. split; [done|]. intros v w Hv.
  destruct (Hdrawn v w Hv) as (d' & Hd' & Hw). specialize (Hs v). rewrite Hd' in Hs.
  destruct (doms !! v) as [d|]; [|done]. exists d, d'. auto.
Qed.

Lemma solve_assignment_from_domains_witness :
  dict_wf ex_solution ∧
  (∀ v, v ∈ variables ex_cw ↔ is_Some (dict_lookup ex_solution v)) ∧
  ∀ v w, dict_lookup ex_solution v = Some w →
         ∃ d d', init_domains ex_cw !! v = Some d ∧
                 enforce_node_consistency (init_domains ex_cw) !! v = Some d' ∧
                 w ∈ d' ∧ w ∈ d.
Proof.
  apply (solve_assignment_from_domains ex_cw).
  vm_compute. reflexivity.
Defined.

(** X16. [solve] decides a well-formed instance: it returns an assignment
    of pool words that is a solution, or it returns [None] and the instance
    has no solution. It raises nothing. *)
Theorem solve_decides (cw : Crossword) :
  well_formed cw → neighbors_symmetric cw →
  (∃ a doms', solve cw (init_domains cw) = Ok (Some a, doms') ∧
              solution cw (init_domains cw) a) ∨
  (∃ doms', solve cw (init_domains cw) = Ok (None, doms') ∧
            ∀ b, ¬ solution cw (init_domains cw) b).
Proof.
  intros Hwf Hsym. destruct (solve_returns cw Hwf) as ([a|] & doms' & H).
  - left. exists a, doms'. split; [done|].
    apply solve_some_solution in H as [(Hd & Hkeys & Hsat & Hdrawn) Hs].
    split; [done|]. split; [done|]. split; [done|].
    intros v w Hv. destruct (Hdrawn v w Hv) as (d' & Hd' & Hw). specialize (Hs v).
    rewrite Hd' in Hs. destruct (init_domains cw !! v) as [d|]; [|done]. eauto.
  - right. exists doms'. split; [done|]. intros b.
    eapply solve_none_no_solution; [done| |exact H].
    intros v [d Hd]%elem_of_dom. rewrite init_domains_lookup in Hd. by case_decide.
Qed.

Lemma solve_decides_witness :
  (∃ a doms', solve ex_cw (init_domains ex_cw) = Ok (Some a, doms') ∧
              solution ex_cw (init_domains ex_cw) a) ∨
  (∃ doms', solve ex_cw (init_domains ex_cw) = Ok (None, doms') ∧
            ∀ b, ¬ solution ex_cw (init_domains ex_cw) b).
Proof.
  apply (solve_decides ex_cw ex_cw_well_formed).
  apply crossing_neighbors_symmetric.
Defined.

(** X17. For an instance without variables [solve] returns the empty
    assignment, not [None]. *)
Theorem solve_no_variables (cw : Crossword) :
  variables cw = ∅ → solve cw (init_domains cw) = Ok (Some [], ∅).
Proof.
  intros Hv. unfold solve, solve_with, init_domains. rewrite Hv, gset_to_gmap_empty.
  unfold enforce_node_consistency, all_arcs, dict_keys. rewrite map_to_list_empty. simpl.
  unfold backtrack. simpl. unfold assignment_complete. rewrite Hv. simpl.
  by rewrite bool_decide_eq_true_2.
Qed.

Lemma solve_no_variables_witness :
  solve ex_no_variables (init_domains ex_no_variables) = Ok (Some [], ∅).
Proof. apply (solve_no_variables ex_no_variables). reflexivity. Defined.

(** ** letter_grid *)

#[local] Arguments cell_of : simpl never.

Lemma foldR_app {A S : Type} (body : S → A → result S) (s : S) (l1 l2 : list A) :
  foldR body s (l1 ++ l2) = foldR body s l1 ≫= λ s', foldR body s' l2.
Proof.
  revert s. induction l1 as [|x l1 IH]; intros s; simpl; [done|].
  destruct (body s x) as [s'| |]; simpl; [apply IH|done|done].
Qed.

Lemma foldR_omap {A W S : Type} (body1 : S → A → result S) (body2 : S → W → result S)
    (f : A → option W) (s : S) (l : list A) :
  (∀ x, x ∈ l → ∃ w, f x = Some w ∧ ∀ s', body1 s' x = body2 s' w) →
  foldR body1 s l = foldR body2 s (omap f l).
Proof.
  revert s. induction l as [|x l IH]; intros s Hl; [done|].
  destruct (Hl x) as (w & Hw & Hbody); [left|].
  change (omap f (x :: l)) with (match f x with Some y => y :: omap f l | None => omap f l end).
  rewrite Hw. cbn [foldR]. rewrite Hbody.
  destruct (body2 s w) as [s'| |]; [|done|done].
  apply IH. intros; apply Hl. by right.
Qed.

Lemma write_word_writes (g : grid) (variable : Var) (word : string) :
  write_word g variable word = write_all g (word_writes variable word).
Proof.
  unfold write_word, word_writes, write_all. apply foldR_omap.
  intros k Hk%elem_of_seq. destruct (get_is_Some k word) as [c Hc]; [lia|].
  exists (cell_of variable k, c). rewrite Hc. split; [done|]. intros g'.
  by rewrite (proj2 (str_index_Ok _ _ _) Hc).
Qed.

Lemma letter_grid_writes (height width : nat) (a : assignment) :
  letter_grid height width a
  = write_all (replicate height (replicate width None)) (writes a).
Proof.
  unfold letter_grid, writes. generalize (replicate height (replicate width (@None Ascii.ascii))).
  induction a as [|[v word] a IH]; intros g; [done|].
  simpl. rewrite write_word_writes. unfold write_all at 2. rewrite foldR_app.
  fold (write_all g (word_writes v word)).
  destruct (write_all g (word_writes v word)) as [g'| |]; simpl; [apply IH|done|done].
Qed.

Lemma elem_of_writes (a : assignment) i j c :
  (i, j, c) ∈ writes a ↔
  ∃ v word k, (v, word) ∈ a ∧ String.get k word = Some c ∧ cell_of v k = (i, j).
Proof.
  unfold writes. rewrite list_elem_of_bind. split.
  - intros ([v word] & Hin & Ha). simpl in Hin. unfold word_writes in Hin.
    apply list_elem_of_omap in Hin as (k & Hk & Hget).
    destruct (String.get k word) as [c'|] eqn:Hc; simplify_eq/=. eauto 10.
  - intros (v & word & k & Ha & Hc & Hcell). exists (v, word). split; [|done].
    simpl. unfold word_writes. apply list_elem_of_omap. exists k. split.
    + apply elem_of_seq. apply get_Some_lt in Hc. lia.
    + rewrite Hc. simpl. by rewrite Hcell.
Qed.

Lemma last_write_Some ws i j c : last_write ws i j = Some c → (i, j, c) ∈ ws.
Proof.
  induction ws as [|[[i' j'] c'] ws IH]; simpl; [done|].
  destruct (last_write ws i j) as [c0|].
  - intros [= ->]. right. by apply IH.
  - case_decide as Heq; [|done]. simpl in Heq. injection Heq as -> ->.
    intros [= ->]. left.
Qed.

Lemma last_write_None ws i j : last_write ws i j = None ↔ ∀ c, (i, j, c) ∉ ws.
Proof.
  induction ws as [|[[i' j'] c'] ws IH]; simpl.
  - split; [intros _ c; apply not_elem_of_nil|done].
  - destruct (last_write ws i j) as [c0|] eqn:Hl.
    + split; [done|]. intros H. exfalso. apply (H c0). right. by apply last_write_Some.
    + pose proof (proj1 IH eq_refl) as Hws. case_decide as Heq; simpl in Heq.
      * split; [done|]. intros H. exfalso. injection Heq as -> ->. apply (H c'). left.
      * split; [|done]. intros _ c [[= -> -> ->]|Hin]%elem_of_cons; [done|].
        by apply (Hws c).
Qed.

Lemma grid_set_inv (g g' : grid) i j c :
  grid_set g i j c = Ok g' →
  ∃ row, g !! i = Some row ∧ j < length row ∧ g' = <[i := <[j := Some c]> row]> g.
Proof.
  unfold grid_set. destruct (g !! i) as [row|]; [|done].
  case_decide; [|done]. intros [= <-]. eauto.
Qed.

Lemma grid_get_set (g g' : grid) i j c i' j' :
  grid_set g i j c = Ok g' →
  grid_get g' i' j' = if decide ((i, j) = (i', j')) then Some (Some c) else grid_get g i' j'.
Proof.
  intros (row & Hrow & Hj & ->)%grid_set_inv. unfold grid_get.
  destruct (decide (i = i')) as [<-|Hi].
  - rewrite list_lookup_insert_eq by (by eapply lookup_lt_Some). rewrite Hrow. simpl.
    destruct (decide (j = j')) as [<-|Hj'].
    + rewrite decide_True by done. by rewrite list_lookup_insert_eq.
    + rewrite decide_False by congruence. by rewrite list_lookup_insert_ne.
  - rewrite decide_False by congruence. by rewrite list_lookup_insert_ne.
Qed.

(** After all writes a cell holds the letter written to it last, or what it
    held before. *)
Lemma write_all_get (g g' : grid) ws i j :
  write_all g ws = Ok g' →
  grid_get g' i j = match last_write ws i j with
                    | Some c => Some (Some c)
                    | None => grid_get g i j
                    end.
Proof.
  unfold write_all. revert g. induction ws as [|[[i' j'] c'] ws IH]; intros g H; simpl in H.
  - by inv_ok.
  - inv_ok. rewrite (IH _ H). simpl. destruct (last_write ws i j); [done|].
    rewrite (grid_get_set _ _ _ _ _ _ _ E). simpl.
    destruct (decide ((i', j') = (i, j))); done.
Qed.

Lemma grid_set_dims height width (g g' : grid) i j c :
  grid_dims height width g → grid_set g i j c = Ok g' → grid_dims height width g'.
Proof.
  intros [Hh Hw] (row & Hrow & Hj & ->)%grid_set_inv. split; [by rewrite length_insert|].
  apply Forall_insert; [done|]. rewrite length_insert.
  rewrite Forall_forall in Hw. apply Hw. by eapply list_elem_of_lookup_2.
Qed.

Lemma grid_set_Ok height width (g : grid) i j c :
  grid_dims height width g → i < height → j < width → ∃ g', grid_set g i j c = Ok g'.
Proof.
  intros [Hh Hw] Hi Hj. unfold grid_set.
  destruct (lookup_lt_is_Some_2 g i) as [row Hrow]; [lia|]. rewrite Hrow.
  rewrite Forall_forall in Hw. rewrite decide_True; [eauto|].
  rewrite (Hw row); [done|]. by eapply list_elem_of_lookup_2.
Qed.

Lemma grid_set_raise height width (g : grid) i j c :
  grid_dims height width g → ¬ (i < height ∧ j < width) →
  grid_set g i j c = Raise IndexError.
Proof.
  intros [Hh Hw] Hout. unfold grid_set. destruct (g !! i) as [row|] eqn:Hrow; [|done].
  rewrite Forall_forall in Hw. rewrite decide_False; [done|].
  rewrite (Hw row) by (by eapply list_elem_of_lookup_2).
  apply lookup_lt_Some in Hrow. lia.
Qed.

Lemma write_all_cases height width (g : grid) ws :
  grid_dims height width g →
  (Forall (λ w, w.1.1 < height ∧ w.1.2 < width) ws ∧
   ∃ g', write_all g ws = Ok g' ∧ grid_dims height width g') ∨
  (¬ Forall (λ w, w.1.1 < height ∧ w.1.2 < width) ws ∧
   write_all g ws = Raise IndexError).
Proof.
  unfold write_all. revert g. induction ws as [|[[i j] c] ws IH]; intros g Hg; simpl.
  - left. eauto.
  - destruct (decide (i < height ∧ j < width)) as [[Hi Hj]|Hout].
    + destruct (grid_set_Ok height width g i j c Hg Hi Hj) as [g1 Hg1].
      rewrite Hg1. simpl.
      destruct (IH g1) as [[Hall Hok]|[Hnot Hraise]]; [by eapply grid_set_dims| |].
      * left. split; [by constructor|done].
      * right. split; [|done]. intros Hall. apply Hnot. by inv Hall.
    + right. split.
      * intros Hall. apply Hout. by inv Hall.
      * by rewrite (grid_set_raise height width g i j c Hg Hout).
Qed.

Lemma replicate_dims height width :
  grid_dims height width (replicate height (replicate width None)).
Proof.
  split; [apply length_replicate|]. apply Forall_replicate, length_replicate.
Qed.

Lemma in_grid_writes height width (a : assignment) :
  in_grid height width a ↔
  Forall (λ w : nat * nat * Ascii.ascii, w.1.1 < height ∧ w.1.2 < width) (writes a).
Proof.
  rewrite Forall_forall. split.
  - intros Hin [[i j] c] (v & word & k & Ha & Hc & Hcell)%elem_of_writes. simpl.
    destruct (Hin v word k Ha) as [Hi Hj]; [by eapply get_Some_lt|].
    rewrite Hcell in Hi, Hj. done.
  - intros Hall v word k Ha Hk. destruct (get_is_Some k word Hk) as [c Hc].
    apply (Hall ((cell_of v k), c)).
    destruct (cell_of v k) as [i j] eqn:Hcell. apply elem_of_writes. eauto 10.
Qed.

(** X18. [letter_grid] returns a grid exactly when every letter of every
    assigned word falls inside the grid; the grid then has [height] rows of
    [width] cells. A letter outside the grid makes it raise [IndexError]. *)
Theorem letter_grid_bounds (height width : nat) (a : assignment) :
  (in_grid height width a ∧
   ∃ g, letter_grid height width a = Ok g ∧
        length g = height ∧ Forall (λ row, length row = width) g) ∨
  (¬ in_grid height width a ∧ letter_grid height width a = Raise IndexError).
Proof.
  rewrite letter_grid_writes, in_grid_writes.
  apply write_all_cases, replicate_dims.
Qed.

(** X19. Reading the grid back along a variable gives its word: where the
    letters that share a cell agree, every cell of every assigned variable
    holds the letter of its word. *)
Theorem letter_grid_spells (height width : nat) (a : assignment) (g : grid) :
  letter_grid height width a = Ok g → crossings_agree a →
  ∀ v word k c, (v, word) ∈ a → String.get k word = Some c →
                grid_get g (cell_of v k).1 (cell_of v k).2 = Some (Some c).
Proof.
  rewrite letter_grid_writes. intros Hg Hagree v word k c Ha Hc.
  rewrite (write_all_get _ _ _ _ _ Hg).
  destruct (last_write (writes a) (cell_of v k).1 (cell_of v k).2) as [c'|] eqn:Hl.
  - apply last_write_Some, elem_of_writes in Hl as (v2 & w2 & k2 & Ha2 & Hc2 & Hcell).
    do 2 f_equal. apply (Hagree v2 w2 v word k2 k c' c Ha2 Ha Hc2 Hc).
    rewrite Hcell. by destruct (cell_of v k).
  - exfalso. apply (proj1 (last_write_None _ _ _) Hl c). apply elem_of_writes.
    exists v, word, k. split; [done|]. split; [done|]. by destruct (cell_of v k).
Qed.

(** X20. A cell inside the grid that no letter of an assigned word falls on
    is left [None]. *)
Theorem letter_grid_blank (height width : nat) (a : assignment) (g : grid) (i j : nat) :
  letter_grid height width a = Ok g → i < height → j < width →
  (∀ v word k, (v, word) ∈ a → k < String.length word → cell_of v k ≠ (i, j)) →
  grid_get g i j = Some None.
Proof.
  rewrite letter_grid_writes. intros Hg Hi Hj Hfree.
  rewrite (write_all_get _ _ _ _ _ Hg).
  destruct (last_write (writes a) i j) as [c|] eqn:Hl.
  - apply last_write_Some, elem_of_writes in Hl as (v & word & k & Ha & Hc & Hcell).
    exfalso. eapply Hfree; eauto. by eapply get_Some_lt.
  - unfold grid_get. rewrite lookup_replicate_2 by done. simpl.
    by rewrite lookup_replicate_2.
Qed.

Lemma ex_solution_crossings_agree : crossings_agree ex_solution.
Proof.
  intros v1 w1 v2 w2 k1 k2 c1 c2 H1 H2 Hc1 Hc2 Hcell.
  apply elem_of_cons in H1 as [[= -> ->]|H1%list_elem_of_singleton];
    [|injection H1 as -> ->];
    (apply elem_of_cons in H2 as [[= -> ->]|H2%list_elem_of_singleton];
      [|injection H2 as -> ->]);
    simpl in Hc1, Hc2;
    repeat match goal with
           | H : context [match ?k with 0 => _ | S _ => _ end] |- _ =>
               is_var k; destruct k; try discriminate H
           end;
    vm_compute in Hcell; congruence.
Qed.

Lemma letter_grid_spells_witness :
  ∃ g, letter_grid 3 3 ex_solution = Ok g ∧
       ∀ v word k c, (v, word) ∈ ex_solution → String.get k word = Some c →
                     grid_get g (cell_of v k).1 (cell_of v k).2 = Some (Some c).
Proof.
  eexists. split; [vm_compute; reflexivity|].
  apply (letter_grid_spells 3 3 ex_solution).
  - vm_compute. reflexivity.
  - apply ex_solution_crossings_agree.
Defined.

Lemma letter_grid_blank_witness :
  ∃ g, letter_grid 3 3 ex_solution = Ok g ∧ grid_get g 0 0 = Some None.
Proof.
  eexists. split; [vm_compute; reflexivity|].
  apply (letter_grid_blank 3 3 ex_solution).
  - vm_compute. reflexivity.
  - lia.
  - lia.
  - intros v word k Hin Hk.
    apply elem_of_cons in Hin as [[= -> ->]|Hin%list_elem_of_singleton];
      [|injection Hin as -> ->]; unfold cell_of; simpl; intros [=]; lia.
Defined.

(** ** consistent *)

(** X21. Taking entries away keeps an assignment consistent: when
    [consistent] returns [True] for a dict, it returns [True] for every
    dict that holds only entries of it. *)
Theorem consistent_sub (cw : Crossword) (a b : assignment) :
  dict_wf a → extends b a → consistent cw b = Ok true → consistent cw a = Ok true.
Proof.
  intros Hwf Hext Hb%consistent_sound. apply consistent_complete; [done|].
  by eapply satisfies_sub.
Qed.

Lemma consistent_sub_witness :
  consistent ex_cw [(ex_across, "ACE"%string)] = Ok true.
Proof.
  apply (consistent_sub ex_cw [(ex_across, "ACE"%string)] ex_solution).
  - unfold dict_wf. apply (bool_decide_unpack _). vm_compute. exact I.
  - intros v w. simpl. case_decide; [|done]. subst v. intros [= <-].
    vm_compute. reflexivity.
  - vm_compute. reflexivity.
Defined.
